(** * influxd startup ([cmd/influxd/run.go]) and the election protocol of the
    clustering core.

    [Module Influxd] is a shallow embedding of [cmd/influxd/run.go]: the
    functions [Run], [parseConfig], [openBroker], [joinLog], [openServer],
    [joinServer], [parseURLs] and [fileExists].  The program talks to objects
    that live outside this file (the raft log, the broker, the messaging
    client, the data server, the operating system); every such call is an
    explicit step of a small state-and-exit monad: it asks the host for the
    result, moves the host's world on, and is recorded in the list of events
    of the run.  A [go] statement is recorded where it is started; what the
    goroutine does afterwards is not followed.
    [log.Fatal]/[log.Fatalf] end the process and are the [Fatal] outcome;
    [log.Printf]/[log.Println] only print and are left out.

    [Module Raft] models the election part of the consensus engine from the
    specification (the engine's code is in package [raft], which is not part
    of the sources at hand). *)

From stdpp Require Import base strings list gmap sets.
From Stdlib Require Import Ascii ZArith Lia.

Local Open Scope string_scope.

Module Influxd.

(** ** Data *)

(** A [url.URL] value, kept in textual form; the code only passes URLs on. *)
Definition URL := string.

(** A Go [error] value, by its message. *)
Definition error := string.

(** The configuration structs.  [Config] is declared in another file of
    package [main]; the fields below are the ones [run.go] reads, nested as
    the selectors in [run.go] are ([config.Logging.RaftTracing], ...).
    Durations are [time.Duration] values (int64 nanoseconds). *)
Record LoggingConfig := {
  Logging_RaftTracing : bool;
  Logging_WriteTracing : bool }.

Record ContinuousQueryConfig := {
  ContinuousQuery_Disable : bool;
  ContinuousQuery_RecomputePreviousN : Z;
  ContinuousQuery_RecomputeNoOlderThan : Z;
  ContinuousQuery_ComputeRunsPerInterval : Z;
  ContinuousQuery_ComputeNoMoreThan : Z }.

Record DataConfig := {
  Data_Dir : string;
  Data_RetentionAutoCreate : bool;
  Data_RetentionCheckEnabled : bool;
  Data_RetentionCheckPeriod : Z }.

Record AdminConfig := {
  Admin_Enabled : bool;
  Admin_Port : Z }.

Record CollectdConfig := {
  Collectd_Enabled : bool;
  Collectd_TypesDB : string;
  Collectd_Database : string }.

Record GraphiteConfig := {
  Graphite_Enabled : bool;
  Graphite_Protocol : string }.

Record OpenTSDBConfig := {
  OpenTSDB_Enabled : bool;
  OpenTSDB_RetentionPolicy : string }.

Record MonitoringConfig := {
  Monitoring_Enabled : bool;
  Monitoring_WriteInterval : Z }.

Record Config := {
  Hostname : string;
  BindAddress : string;
  ReportingDisabled : bool;
  Authentication_Enabled : bool;
  Snapshot_Enabled : bool;
  UDP_Enabled : bool;
  Logging : LoggingConfig;
  ContinuousQuery : ContinuousQueryConfig;
  Data : DataConfig;
  Admin : AdminConfig;
  Collectd : CollectdConfig;
  Graphites : list GraphiteConfig;
  OpenTSDB : OpenTSDBConfig;
  Monitoring : MonitoringConfig }.

(** [config.Hostname = hostname] *)
Definition set_Hostname (h : string) (c : Config) : Config :=
  {| Hostname := h;
     BindAddress := BindAddress c;
     ReportingDisabled := ReportingDisabled c;
     Authentication_Enabled := Authentication_Enabled c;
     Snapshot_Enabled := Snapshot_Enabled c;
     UDP_Enabled := UDP_Enabled c;
     Logging := Logging c;
     ContinuousQuery := ContinuousQuery c;
     Data := Data c;
     Admin := Admin c;
     Collectd := Collectd c;
     Graphites := Graphites c;
     OpenTSDB := OpenTSDB c;
     Monitoring := Monitoring c |}.

(** The methods of the configuration structs that [run.go] calls.  Their
    bodies are in the file that declares [Config]; here they are parameters:
    functions of the struct they are called on. *)
Record ConfigAPI := {
  BrokerDir : Config → string;
  DataDir : Config → string;
  JoinURLs : Config → string;
  BrokerURL : Config → URL;
  BrokerAddr : Config → string;
  DataURL : Config → URL;
  DataAddrUDP : Config → string;
  SnapshotAddr : Config → string;
  ShardGroupPreCreateCheckPeriod : Config → Z;
  Collectd_ConnectionString : CollectdConfig → string → string;
  Graphite_NameSeparatorString : GraphiteConfig → string;
  Graphite_LastEnabled : GraphiteConfig → bool;
  Graphite_DatabaseString : GraphiteConfig → string;
  Graphite_ConnectionString : GraphiteConfig → string → string;
  OpenTSDB_DatabaseString : OpenTSDBConfig → string;
  OpenTSDB_ListenAddress : OpenTSDBConfig → string → string }.

(** The same methods with [JoinURLs] replaced. *)
Definition with_JoinURLs (f : Config → string) (api : ConfigAPI) : ConfigAPI :=
  {| BrokerDir := BrokerDir api;
     DataDir := DataDir api;
     JoinURLs := f;
     BrokerURL := BrokerURL api;
     BrokerAddr := BrokerAddr api;
     DataURL := DataURL api;
     DataAddrUDP := DataAddrUDP api;
     SnapshotAddr := SnapshotAddr api;
     ShardGroupPreCreateCheckPeriod := ShardGroupPreCreateCheckPeriod api;
     Collectd_ConnectionString := Collectd_ConnectionString api;
     Graphite_NameSeparatorString := Graphite_NameSeparatorString api;
     Graphite_LastEnabled := Graphite_LastEnabled api;
     Graphite_DatabaseString := Graphite_DatabaseString api;
     Graphite_ConnectionString := Graphite_ConnectionString api;
     OpenTSDB_DatabaseString := OpenTSDB_DatabaseString api;
     OpenTSDB_ListenAddress := OpenTSDB_ListenAddress api |}.

(** Package-level names of package [main] that [run.go] uses and another
    file declares. *)
Record Globals := {
  version : string;
  commit : string;
  messagingClientFile : string;
  monitoringDatabase : string;
  monitoringRetentionPolicy : string }.

(** ** Calls that leave the program *)

(** One constructor per call on an object outside [run.go].  The receiver is
    left implicit: startup creates one raft log [l], one broker [b], one
    messaging client [c] and one data server [s]. *)
Inductive Call :=
  (* openBroker *)
  | NewLog                                   (* raft.NewLog() *)
  | LogSetURL (u : URL)                      (* l.SetURL(u) *)
  | LogSetDebugEnabled (on : bool)           (* l.DebugEnabled = raftTracing *)
  | NewBroker                                (* influxdb.NewBroker(); b.Log = l *)
  | BrokerOpen (path : string)               (* b.Open(path) *)
  | LogSetFSM                                (* l.FSM = &messaging.RaftFSM{Broker: b} *)
  | LogOpen (path : string)                  (* l.Open(path) *)
  | LogInitialize                            (* l.Initialize() *)
  | LogJoin (u : URL)                        (* l.Join(u) *)
  (* Run *)
  | NetListen (addr : string)                (* net.Listen("tcp", addr) *)
  | GoHttpServe (addr : string)              (* go http.Serve(listener, h) *)
  | RunContinuousQueryLoop                   (* b.RunContinuousQueryLoop() *)
  | SetAuthenticationEnabled (on : bool)
  | StartRetentionPolicyEnforcement (interval : Z)
  | StartShardGroupsPreCreate (interval : Z)
  | GoSnapshotListenAndServe (addr : string)
  | GoAdminListenAndServe (port : Z)
  | CollectdListenAndServe (typesdb database conn : string)
  | UDPListenAndServe (addr : string)
  | CreateDatabaseIfNotExists (db : string)
  | CreateRetentionPolicyIfNotExists (db policy : string)
  | GraphiteNewServer (protocol separator : string) (last : bool) (db : string)
  | GraphiteListenAndServe (conn : string)
  | GoOpenTSDBListenAndServe (policy db laddr : string)
  | StartSelfMonitoring (db policy : string) (interval : Z)
  | GoStartReportingLoop (clusterID : Z)
  (* openServer *)
  | NewMessagingClient (dataURL : URL)       (* influxdb.NewMessagingClient(u) *)
  | ClientSetURLs (urls : list URL)          (* c.SetURLs(urls) *)
  | ClientOpen (path : string)               (* c.Open(path) *)
  | NewServer (writeTrace retentionAutoCreate : bool)
              (recomputePreviousN recomputeNoOlderThan
               computeRunsPerInterval computeNoMoreThan : Z)
              (version commit : string)      (* influxdb.NewServer() and its fields *)
  | ServerOpen (dir : string)                (* s.Open(dir, c) *)
  | ServerInitialize (u : URL)               (* s.Initialize(u) *)
  | ServerJoin (u joinURL : URL).            (* s.Join(&u, &joinURL) *)

(** A call together with the error it returned ([None] is Go's [nil]). *)
Definition Event : Type := Call * option error.

(** What the program runs on: the state of everything outside [run.go]
    ([World]), how each call answers and changes it, and the pure library
    functions the code uses.  Nothing is assumed about any of it. *)
Record Host := {
  World : Type;
  (* a call that returns an error (or nothing): new world and the error *)
  exec : Call → World → World * option error;
  (* os.Stat(path) followed by os.IsNotExist(err) *)
  os_Stat_IsNotExist : string → World → bool;
  (* c.URLs() *)
  client_URLs : World → list URL;
  (* b.URL() *)
  broker_URL : World → URL;
  (* b.Broker.ClusterID(), a uint64 *)
  broker_ClusterID : World → Z;
  (* NewConfig() and ParseConfigFile(path) *)
  NewConfig : World → Config + error;
  ParseConfigFile : string → World → Config + error;
  (* url.Parse(s) *)
  url_Parse : string → option URL;
  (* filepath.Join(a, b) *)
  filepath_Join : string → string → string }.

(** ** The monad: world, trace, and process exit *)

Inductive outcome (A : Type) :=
  | Ret (a : A)             (* the function returned [a] *)
  | Fatal (msg : string).   (* log.Fatal / log.Fatalf: the process exited *)
Arguments Ret {A} a.
Arguments Fatal {A} msg.

(** What running a piece of the program from a world gives: how it ended,
    the world it left, and the calls it made, in order. *)
Record run (W A : Type) := Ran {
  result : outcome A;
  final : W;
  events : list Event }.
Arguments Ran {W A}.
Arguments result {W A}.
Arguments final {W A}.
Arguments events {W A}.

(** A run that comes after the events [evs]. *)
Definition prepend {W A} (evs : list Event) (r : run W A) : run W A :=
  match r with
  | Ran o w evs' => Ran o w (evs ++ evs')
  end.

Section Program.
Context (H : Host).

Definition M (A : Type) : Type := World H → run (World H) A.

Definition ret {A} (a : A) : M A := λ w, Ran (Ret a) w [].

Definition bind {A B} (m : M A) (f : A → M B) : M B :=
  λ w, match m w with
       | Ran (Ret a) w' evs => prepend evs (f a w')
       | Ran (Fatal msg) w' evs => Ran (Fatal msg) w' evs
       end.

(** [log.Fatal(msg)]: nothing after it runs. *)
Definition fatal {A} (msg : string) : M A := λ w, Ran (Fatal msg) w [].

(** A call whose error result the program looks at. *)
Definition call (c : Call) : M (option error) :=
  λ w, let r := exec H c w in Ran (Ret (snd r)) (fst r) [(c, snd r)].

(** A call with no result (a setter, a constructor, a [go] statement). *)
Definition tell (c : Call) : M unit :=
  λ w, let r := exec H c w in Ran (Ret tt) (fst r) [(c, None)].

(** Reading the world. *)
Definition ask {A} (q : World H → A) : M A := λ w, Ran (Ret (q w)) w [].

End Program.

Arguments ret {H A} a.
Arguments bind {H A B} m f.
Arguments fatal {H A} msg.
Arguments ask {H A} q.
Arguments bind : simpl never.

Notation "x <- m ;; k" := (bind m (λ x, k))
  (at level 100, m at next level, right associativity).
Notation "m ;;; k" := (bind m (λ _, k))
  (at level 100, right associativity).

Section Startup.
Context (H : Host) (G : Globals) (api : ConfigAPI).

(** [strings.Split(s, ",")] *)
Fixpoint split_comma (s : string) : list string :=
  match s with
  | EmptyString => [""]
  | String c r =>
      if Ascii.eqb c ","%char then "" :: split_comma r
      else match split_comma r with
           | h :: t => String c h :: t
           | [] => [String c ""]
           end
  end.

(** returns true if the file exists. *)
Definition fileExists (path : string) : M H bool :=
  missing <- ask (os_Stat_IsNotExist H path) ;;
  if missing then ret false else ret true.

(** the [for] loop of [parseURLs] over the split pieces, [a] being the
    slice built so far *)
Fixpoint parseURLs_loop (pieces : list string) (a : list URL) : M H (list URL) :=
  match pieces with
  | [] => ret a
  | s :: rest =>
      match url_Parse H s with
      | None => fatal "cannot parse urls: %s"
      | Some u => parseURLs_loop rest (a ++ [u])
      end
  end.

(** parses a comma-delimited list of URLs. *)
Definition parseURLs (s : string) : M H (list URL) :=
  if String.eqb s "" then ret []
  else parseURLs_loop (split_comma s) [].

(** joins a raft log to an existing cluster. *)
Fixpoint joinLog (joinURLs : list URL) : M H unit :=
  match joinURLs with
  | [] => fatal "join: failed to connect raft log to any specified server"
  | u :: rest =>
      err <- call H (LogJoin u) ;;
      match err with
      | Some _ => joinLog rest
      | None => ret tt
      end
  end.

(** creates and initializes a broker. *)
Definition openBroker (path : string) (u : URL) (initializing : bool)
    (joinURLs : list URL) (raftTracing : bool) : M H unit :=
  tell H NewLog ;;;
  tell H (LogSetURL u) ;;;
  tell H (LogSetDebugEnabled raftTracing) ;;;
  tell H NewBroker ;;;
  err <- call H (BrokerOpen path) ;;
  match err with
  | Some _ => fatal "failed to open broker at %s : %s"
  | None =>
      tell H LogSetFSM ;;;
      err <- call H (LogOpen (filepath_Join H path "raft")) ;;
      match err with
      | Some _ => fatal "raft: %s"
      | None =>
          if initializing then
            match joinURLs with
            | [] =>
                err <- call H LogInitialize ;;
                match err with
                | Some _ => fatal "initialize raft log: %s"
                | None => ret tt
                end
            | _ :: _ => joinLog joinURLs
            end
          else ret tt
      end
  end.

(** joins a server to an existing cluster. *)
Fixpoint joinServer (u : URL) (joinURLs : list URL) : M H unit :=
  match joinURLs with
  | [] => fatal "join: failed to connect data node to any specified server"
  | joinURL :: rest =>
      err <- call H (ServerJoin u joinURL) ;;
      match err with
      | Some _ => joinServer u rest
      | None => ret tt
      end
  end.

(** creates and initializes a server.  The broker [b] is the one
    [openBroker] made; the result is the server handle, which is never nil. *)
Definition openServer (config : Config) (initServer initBroker : bool)
    (joinURLs : list URL) : M H unit :=
  (* Use broker URL if there are no join URLs passed. *)
  clientJoinURLs <- match joinURLs with
                    | [] => bu <- ask (broker_URL H) ;; ret [bu]
                    | _ :: _ => ret joinURLs
                    end ;;
  (* Create messaging client to the brokers. *)
  tell H (NewMessagingClient (DataURL api config)) ;;;
  tell H (ClientSetURLs clientJoinURLs) ;;;
  err <- call H (ClientOpen (filepath_Join H (Data_Dir (Data config))
                                           (messagingClientFile G))) ;;
  match err with
  | Some _ => fatal "messaging client error: %s"
  | None =>
      urls <- ask (client_URLs H) ;;
      match urls with
      | [] => fatal "messaging client has no broker URLs"
      | _ :: _ =>
          (* Create and open the server. *)
          tell H (NewServer
                    (Logging_WriteTracing (Logging config))
                    (Data_RetentionAutoCreate (Data config))
                    (ContinuousQuery_RecomputePreviousN (ContinuousQuery config))
                    (ContinuousQuery_RecomputeNoOlderThan (ContinuousQuery config))
                    (ContinuousQuery_ComputeRunsPerInterval (ContinuousQuery config))
                    (ContinuousQuery_ComputeNoMoreThan (ContinuousQuery config))
                    (version G) (commit G)) ;;;
          err <- call H (ServerOpen (Data_Dir (Data config))) ;;
          match err with
          | Some _ => fatal "failed to open data server: %v"
          | None =>
              (* If the server is uninitialized then initialize or join it. *)
              if initServer then
                match joinURLs with
                | [] =>
                    if initBroker then
                      bu <- ask (broker_URL H) ;;
                      err <- call H (ServerInitialize bu) ;;
                      match err with
                      | Some _ => fatal "server initialization error: %s"
                      | None => ret tt
                      end
                    else ret tt
                | _ :: _ => joinServer (DataURL api config) joinURLs
                end
              else ret tt
          end
      end
  end.

(** [Run], lines 85-93: the two flags, returned as
    [(initBroker, initServer)]. *)
Definition initFlags (config : Config) : M H (bool * bool) :=
  brokerDirExists <- fileExists (BrokerDir api config) ;;
  let initBroker := negb brokerDirExists in
  dataDirExists <- fileExists (DataDir api config) ;;
  let initServer := negb dataDirExists in
  let initServer := initServer || initBroker in
  ret (initBroker, initServer).

(** [Run], lines 95-101: parse join urls from the --join flag. *)
Definition runJoinURLs (config : Config) (join : string) : M H (list URL) :=
  if String.eqb join "" then parseURLs (JoinURLs api config)
  else parseURLs join.

(** [Run], lines 200-226: spin up any Graphite servers. *)
Fixpoint runGraphites (config : Config) (cs : list GraphiteConfig) : M H unit :=
  match cs with
  | [] => ret tt
  | c :: rest =>
      if negb (Graphite_Enabled c) then runGraphites config rest
      else
        err <- call H (CreateDatabaseIfNotExists (Graphite_DatabaseString api c)) ;;
        match err with
        | Some _ => fatal "failed to create database for %s Graphite server: %s"
        | None =>
            err <- call H (GraphiteNewServer (Graphite_Protocol c)
                             (Graphite_NameSeparatorString api c)
                             (Graphite_LastEnabled api c)
                             (Graphite_DatabaseString api c)) ;;
            match err with
            | Some _ => fatal "failed to initialize %s Graphite server: %s"
            | None =>
                err <- call H (GraphiteListenAndServe
                                 (Graphite_ConnectionString api c (BindAddress config))) ;;
                match err with
                | Some _ => fatal "failed to start %s Graphite server: %s"
                | None => runGraphites config rest
                end
            end
        end
  end.

(** [Run], lines 153-273: start the server handler ([s != nil] always
    holds, [openServer] returns what [influxdb.NewServer] made). *)
Definition runServices (config : Config) : M H unit :=
  (if Snapshot_Enabled config
   then tell H (GoSnapshotListenAndServe (SnapshotAddr api config))
   else ret tt) ;;;
  (* Start the admin interface on the default port *)
  (if Admin_Enabled (Admin config)
   then tell H (GoAdminListenAndServe (Admin_Port (Admin config)))
   else ret tt) ;;;
  (* Spin up the collectd server; a failure is only logged *)
  (if Collectd_Enabled (Collectd config)
   then _ <- call H (CollectdListenAndServe
                       (Collectd_TypesDB (Collectd config))
                       (Collectd_Database (Collectd config))
                       (Collectd_ConnectionString api (Collectd config)
                                                  (BindAddress config))) ;;
        ret tt
   else ret tt) ;;;
  (* Start the server bound to a UDP listener; a failure is only logged *)
  (if UDP_Enabled config
   then _ <- call H (UDPListenAndServe (DataAddrUDP api config)) ;; ret tt
   else ret tt) ;;;
  runGraphites config (Graphites config) ;;;
  (* Spin up any OpenTSDB servers *)
  (if OpenTSDB_Enabled (OpenTSDB config) then
     let db := OpenTSDB_DatabaseString api (OpenTSDB config) in
     let laddr := OpenTSDB_ListenAddress api (OpenTSDB config) (BindAddress config) in
     let policy := OpenTSDB_RetentionPolicy (OpenTSDB config) in
     err <- call H (CreateDatabaseIfNotExists db) ;;
     match err with
     | Some _ => fatal "failed to create database for OpenTSDB server: %s"
     | None =>
         (if negb (String.eqb policy "") then
            err <- call H (CreateRetentionPolicyIfNotExists db policy) ;;
            match err with
            | Some _ => fatal "failed to create retention policy for OpenTSDB: %s"
            | None => ret tt
            end
          else ret tt) ;;;
         tell H (GoOpenTSDBListenAndServe policy db laddr)
     end
   else ret tt) ;;;
  (* Start up self-monitoring if enabled. *)
  (if Monitoring_Enabled (Monitoring config) then
     let database := monitoringDatabase G in
     let policy := monitoringRetentionPolicy G in
     let interval := Monitoring_WriteInterval (Monitoring config) in
     err <- call H (CreateDatabaseIfNotExists database) ;;
     match err with
     | Some _ => fatal "failed to create database %s for internal monitoring: %s"
     | None =>
         err <- call H (CreateRetentionPolicyIfNotExists database policy) ;;
         match err with
         | Some _ => fatal "failed to create retention policy for internal monitoring: %s"
         | None => tell H (StartSelfMonitoring database policy interval)
         end
     end
   else ret tt).

(** [Run], lines 103-283: everything after the flags and the join URLs
    are known. *)
Definition runNode (config : Config) (initBroker initServer : bool)
    (joinURLs : list URL) : M H unit :=
  (* Open broker & raft log, initialize or join as necessary. *)
  openBroker (BrokerDir api config) (BrokerURL api config) initBroker joinURLs
             (Logging_RaftTracing (Logging config)) ;;;
  (* Start the broker handler. *)
  err <- call H (NetListen (BrokerAddr api config)) ;;
  match err with
  | Some _ => fatal "TCP server failed to listen on %s. %s "
  | None =>
      tell H (GoHttpServe (BrokerAddr api config)) ;;;
      (if ContinuousQuery_Disable (ContinuousQuery config) then ret tt
       else tell H RunContinuousQueryLoop) ;;;
      (* Open server, initialize or join as necessary. *)
      openServer config initServer initBroker joinURLs ;;;
      tell H (SetAuthenticationEnabled (Authentication_Enabled config)) ;;;
      (* Enable retention policy enforcement if requested. *)
      (if Data_RetentionCheckEnabled (Data config) then
         err <- call H (StartRetentionPolicyEnforcement
                          (Data_RetentionCheckPeriod (Data config))) ;;
         match err with
         | Some _ => fatal "retention policy enforcement failed: %s"
         | None => ret tt
         end
       else ret tt) ;;;
      (* Start shard group pre-create *)
      err <- call H (StartShardGroupsPreCreate
                       (ShardGroupPreCreateCheckPeriod api config)) ;;
      match err with
      | Some _ => fatal "shard group pre-create failed: %s"
      | None =>
          runServices config ;;;
          (* unless disabled, report anonymous usage stats *)
          (if negb (ReportingDisabled config) then
             clusterID <- ask (broker_ClusterID H) ;;
             if negb (Z.eqb clusterID 0)
             then tell H (GoStartReportingLoop clusterID)
             else ret tt
           else ret tt)
      end
  end.

(** [Run(config, join, version)].  The result stands for the three handles
    [(b.Broker, s, l)]; [version] is only printed. *)
Definition Run (config : Config) (join version : string) : M H unit :=
  flags <- initFlags config ;;
  let initBroker := fst flags in
  let initServer := snd flags in
  (* Parse join urls from the --join flag. *)
  joinURLs <- runJoinURLs config join ;;
  runNode config initBroker initServer joinURLs.

(** parseConfig parses the configuration from a given path. Sets overrides
    as needed.  The result is Go's pair of a config pointer and an error:
    [inl c] when the error is nil, [inr err] otherwise. *)
Definition parseConfig (path hostname : string) : M H (Config + error) :=
  if String.eqb path "" then
    r <- ask (NewConfig H) ;;
    match r with
    | inr err =>
        ret (inr ("failed to generate default config: " ++ err
                  ++ ". Please supply an explicit configuration file"))
    | inl c => ret (inl c)
    end
  else
    (* Parse configuration. *)
    r <- ask (ParseConfigFile H path) ;;
    match r with
    | inr err => ret (inr ("config: " ++ err))
    | inl config =>
        (* Override config properties. *)
        let config := if negb (String.eqb hostname "")
                      then set_Hostname hostname config else config in
        ret (inl config)
    end.

End Startup.

(** ** Reading a run *)

Section Reading.
Context (H : Host).

(** The call returned an error / returned nil. *)
Definition failed (e : Event) : Prop := is_Some (snd e).
Definition succeeded (e : Event) : Prop := snd e = None.

(** The calls of a list of events, in order. *)
Definition calls (evs : list Event) : list Call := fst <$> evs.

(** The process was ended by [log.Fatal] / the function returned. *)
Definition exited {A} (r : run (World H) A) : Prop := ∃ msg, result r = Fatal msg.
Definition returned {A} (r : run (World H) A) : Prop := ∃ a, result r = Ret a.

(** Every call the computation makes, from any world, satisfies [P]. *)
Definition emits {A} (P : Call → Prop) (m : M H A) : Prop :=
  ∀ w, Forall P (calls (events (m w))).

(** The world after a sequence of calls. *)
Definition after (cs : list Call) (w : World H) : World H :=
  fold_left (λ w c, fst (exec H c w)) cs w.

(** The host with [path] reported as not existing. *)
Definition with_missing (path : string) : Host :=
  {| World := World H;
     exec := exec H;
     os_Stat_IsNotExist := λ p w,
       if String.eqb p path then true else os_Stat_IsNotExist H p w;
     client_URLs := client_URLs H;
     broker_URL := broker_URL H;
     broker_ClusterID := broker_ClusterID H;
     NewConfig := NewConfig H;
     ParseConfigFile := ParseConfigFile H;
     url_Parse := url_Parse H;
     filepath_Join := filepath_Join H |}.

End Reading.

Arguments exited {H A} r.
Arguments returned {H A} r.
Arguments emits {H A} P m.

(** Kinds of calls. *)
Definition is_LogJoin (c : Call) : bool :=
  match c with LogJoin _ => true | _ => false end.
Definition is_ServerJoin (c : Call) : bool :=
  match c with ServerJoin _ _ => true | _ => false end.
Definition is_BrokerOpen (c : Call) : bool :=
  match c with BrokerOpen _ => true | _ => false end.
Definition is_ClientSetURLs (c : Call) : bool :=
  match c with ClientSetURLs _ => true | _ => false end.

(** The raft log's [Initialize] and [Join] and the server's [Initialize]:
    the calls that bootstrap a cluster or add the broker to one. *)
Definition bootstraps (c : Call) : bool :=
  match c with
  | LogInitialize | LogJoin _ | ServerInitialize _ => true
  | _ => false
  end.

(** The calls [openBroker] (with [joinLog]) makes. *)
Definition broker_phase (c : Call) : bool :=
  match c with
  | NewLog | LogSetURL _ | LogSetDebugEnabled _ | NewBroker | BrokerOpen _
  | LogSetFSM | LogOpen _ | LogInitialize | LogJoin _ => true
  | _ => false
  end.

(** Any [Initialize]. *)
Definition is_Initialize (c : Call) : bool :=
  match c with
  | LogInitialize | ServerInitialize _ => true
  | _ => false
  end.

(** ** Concrete hosts, for running the program on examples *)

(** The URLs of the last [c.SetURLs] among the calls made so far. *)
Fixpoint urls_set (calls : list Call) (current : list URL) : list URL :=
  match calls with
  | [] => current
  | ClientSetURLs us :: rest => urls_set rest us
  | _ :: rest => urls_set rest current
  end.

(** A host whose world is the list of calls made so far.  [fails] says
    which calls return an error, [missing] which paths do not exist, and
    [urls] what the messaging client holds. *)
Definition scripted (fails : Call → bool) (missing : string → bool)
    (urls : list Call → list URL) : Host :=
  {| World := list Call;
     exec := λ c w, ((w ++ [c])%list, if fails c then Some "refused" else None);
     os_Stat_IsNotExist := λ path _, missing path;
     client_URLs := urls;
     broker_URL := λ _, "http://localhost:8086";
     broker_ClusterID := λ _, 0%Z;
     NewConfig := λ _, inr "no home directory";
     ParseConfigFile := λ _ _, inr "no such file";
     url_Parse := λ s, if String.eqb s "%" then None else Some s;
     filepath_Join := λ a b, a ++ "/" ++ b |}.

Definition is_ServerOpen (c : Call) : bool :=
  match c with ServerOpen _ => true | _ => false end.

(** No call fails; the broker directory exists, the data directory is gone. *)
Definition dataDirLost : Host :=
  scripted (λ _, false) (λ p, String.eqb p "/var/influxdb/data")
           (λ w, urls_set w []).

(** No call fails; the data directory exists, the broker directory is gone. *)
Definition brokerDirLost : Host :=
  scripted (λ _, false) (λ p, String.eqb p "/var/influxdb/broker")
           (λ w, urls_set w []).

(** A first start (no directory exists) on which [b.Open] fails. *)
Definition brokerOpenFails : Host :=
  scripted is_BrokerOpen (λ _, true) (λ w, urls_set w []).

(** A first start on which [s.Open] fails. *)
Definition serverOpenFails : Host :=
  scripted is_ServerOpen (λ _, true) (λ w, urls_set w []).

(** A first start on which no peer accepts a join. *)
Definition nobodyAnswers : Host :=
  scripted (λ c, is_LogJoin c || is_ServerJoin c) (λ _, true)
           (λ w, urls_set w []).

Definition sampleConfig : Config :=
  {| Hostname := "localhost";
     BindAddress := "0.0.0.0";
     ReportingDisabled := true;
     Authentication_Enabled := false;
     Snapshot_Enabled := false;
     UDP_Enabled := false;
     Logging := {| Logging_RaftTracing := false; Logging_WriteTracing := false |};
     ContinuousQuery :=
       {| ContinuousQuery_Disable := true;
          ContinuousQuery_RecomputePreviousN := 2;
          ContinuousQuery_RecomputeNoOlderThan := 600000000000;
          ContinuousQuery_ComputeRunsPerInterval := 10;
          ContinuousQuery_ComputeNoMoreThan := 120000000000 |};
     Data :=
       {| Data_Dir := "/var/influxdb/data";
          Data_RetentionAutoCreate := true;
          Data_RetentionCheckEnabled := false;
          Data_RetentionCheckPeriod := 600000000000 |};
     Admin := {| Admin_Enabled := false; Admin_Port := 8083 |};
     Collectd :=
       {| Collectd_Enabled := false; Collectd_TypesDB := ""; Collectd_Database := "" |};
     Graphites := [];
     OpenTSDB := {| OpenTSDB_Enabled := false; OpenTSDB_RetentionPolicy := "" |};
     Monitoring := {| Monitoring_Enabled := false; Monitoring_WriteInterval := 60000000000 |} |}.

(** Configuration methods for [sampleConfig]; [joins] is what
    [config.JoinURLs()] returns. *)
Definition sampleAPI (joins : string) : ConfigAPI :=
  {| BrokerDir := λ _, "/var/influxdb/broker";
     DataDir := λ c, Data_Dir (Data c);
     JoinURLs := λ _, joins;
     BrokerURL := λ c, "http://" ++ Hostname c ++ ":8086";
     BrokerAddr := λ c, BindAddress c ++ ":8086";
     DataURL := λ c, "http://" ++ Hostname c ++ ":8086";
     DataAddrUDP := λ c, BindAddress c ++ ":4444";
     SnapshotAddr := λ c, BindAddress c ++ ":8087";
     ShardGroupPreCreateCheckPeriod := λ _, 2700000000000%Z;
     Collectd_ConnectionString := λ _ bind, bind ++ ":25827";
     Graphite_NameSeparatorString := λ _, ".";
     Graphite_LastEnabled := λ _, true;
     Graphite_DatabaseString := λ _, "graphite";
     Graphite_ConnectionString := λ _ bind, bind ++ ":2003";
     OpenTSDB_DatabaseString := λ _, "opentsdb";
     OpenTSDB_ListenAddress := λ _ bind, bind ++ ":4242" |}.

Definition sampleGlobals : Globals :=
  {| version := "0.9.0";
     commit := "unknown";
     messagingClientFile := "messaging";
     monitoringDatabase := "_influxdb";
     monitoringRetentionPolicy := "default" |}.

(** ** More ways of reading a run *)

(** The number of commas in a string. *)
Fixpoint commas (s : string) : nat :=
  match s with
  | EmptyString => 0
  | String c r => if Ascii.eqb c ","%char then S (commas r) else commas r
  end.

(** Calls whose failure the startup code only logs. *)
Definition tolerated (c : Call) : bool :=
  match c with
  | LogJoin _ | ServerJoin _ _ | CollectdListenAndServe _ _ _
  | UDPListenAndServe _ => true
  | _ => false
  end.

(** A failed call that is not tolerated ends the process. *)
Definition strict {H : Host} {A} (m : M H A) : Prop :=
  ∀ w c e, (c, Some e) ∈ events (m w) → tolerated c = false → exited (m w).

(** What the configuration must say for a call that starts an optional
    service to be made. *)
Definition enabled_by (api : ConfigAPI) (config : Config) (c : Call) : Prop :=
  match c with
  | RunContinuousQueryLoop =>
      ContinuousQuery_Disable (ContinuousQuery config) = false
  | StartRetentionPolicyEnforcement interval =>
      Data_RetentionCheckEnabled (Data config) = true ∧
      interval = Data_RetentionCheckPeriod (Data config)
  | GoSnapshotListenAndServe _ => Snapshot_Enabled config = true
  | GoAdminListenAndServe port =>
      Admin_Enabled (Admin config) = true ∧ port = Admin_Port (Admin config)
  | CollectdListenAndServe _ _ _ => Collectd_Enabled (Collectd config) = true
  | UDPListenAndServe _ => UDP_Enabled config = true
  | GraphiteNewServer protocol _ _ _ =>
      ∃ g, g ∈ Graphites config ∧ Graphite_Enabled g = true ∧
           protocol = Graphite_Protocol g
  | GraphiteListenAndServe conn =>
      ∃ g, g ∈ Graphites config ∧ Graphite_Enabled g = true ∧
           conn = Graphite_ConnectionString api g (BindAddress config)
  | GoOpenTSDBListenAndServe _ _ _ => OpenTSDB_Enabled (OpenTSDB config) = true
  | StartSelfMonitoring _ _ _ => Monitoring_Enabled (Monitoring config) = true
  | GoStartReportingLoop clusterID =>
      ReportingDisabled config = false ∧ clusterID ≠ 0%Z
  | CreateRetentionPolicyIfNotExists _ _ =>
      OpenTSDB_Enabled (OpenTSDB config) = true ∨
      Monitoring_Enabled (Monitoring config) = true
  | _ => True
  end.

(** A call that initializes or joins anything, broker or server. *)
Definition joins_or_bootstraps (c : Call) : bool :=
  bootstraps c || is_ServerJoin c.

(** A first start on which the first peer, http://a:8086, refuses the raft
    log; everything else succeeds. *)
Definition firstPeerDown : Host :=
  scripted (λ c, match c with
                 | LogJoin u => String.eqb u "http://a:8086"
                 | _ => false
                 end)
           (λ _, true) (λ w, urls_set w []).

End Influxd.

(** * The election protocol of the consensus engine *)

Module Raft.
Local Open Scope nat_scope.

(** Modelled from the spec: the consensus engine is package [raft], whose
    code is not among the sources; [run.go] only calls its [NewLog],
    [Open], [Initialize] and [Join].  This module follows sections 3, 4.1
    and 4.2 of the specification: the node states and their transitions,
    [requestVote], [appendEntries] and [propose], heartbeats, election
    timeouts and a majority quorum, for a cluster whose membership is
    fixed.  Acknowledgements of replication and the advance of the leader's
    own commit index are not part of it. *)

Definition NodeID := nat.

Inductive Role := Follower | Candidate | Leader.

(** A log entry; its index is its position in the log, counted from 1. *)
Record LogEntry := {
  entryTerm : nat;
  command : string }.

Record Node := {
  role : Role;
  currentTerm : nat;
  votedFor : option NodeID;
  votes : gset NodeID;        (* who granted this candidate its vote *)
  log : list LogEntry;
  commitIndex : nat }.

Inductive Msg :=
  | RequestVoteMsg (term : nat) (candidateID : NodeID)
                   (lastLogIndex lastLogTerm : nat)
  | VoteMsg (term : nat) (voter candidate : NodeID) (granted : bool)
  | AppendEntriesMsg (term : nat) (leaderID : NodeID)
                     (prevLogIndex prevLogTerm : nat)
                     (entries : list LogEntry) (leaderCommit : nat).

(** The cluster: its members, the state of each, and every message sent so
    far.  A message may be delivered at any time, to any member, any number
    of times, or never.  [elected] is a history: the elections won so far,
    as (term, winner). *)
Record Cluster := {
  peers : gset NodeID;
  nodes : gmap NodeID Node;
  network : list Msg;
  elected : list (nat * NodeID) }.

Definition lastLogIndex (l : list LogEntry) : nat := length l.

Definition lastLogTerm (l : list LogEntry) : nat :=
  match last l with
  | Some e => entryTerm e
  | None => 0
  end.

(** The term of the entry at index [i] (0 before the first entry). *)
Definition termAt (l : list LogEntry) (i : nat) : nat :=
  match i with
  | 0 => 0
  | S j => match l !! j with
           | Some e => entryTerm e
           | None => 0
           end
  end.

(** A log ending in ([lli], [llt]) is at least as up to date as [l]:
    compare term, then index. *)
Definition upToDate (lli llt : nat) (l : list LogEntry) : bool :=
  (lastLogTerm l <? llt)
  || ((lastLogTerm l =? llt) && (lastLogIndex l <=? lli)).

(** A strict majority of the configured members. *)
Definition quorum (members voters : gset NodeID) : bool :=
  size members <? 2 * size voters.

(** Initial state of a node: Follower, term 0. *)
Definition initNode : Node :=
  {| role := Follower; currentTerm := 0; votedFor := None; votes := ∅;
     log := []; commitIndex := 0 |}.

(** Candidate/Leader -> Follower on discovering a higher term. *)
Definition stepDown (t : nat) (nd : Node) : Node :=
  {| role := Follower; currentTerm := t; votedFor := None; votes := ∅;
     log := log nd; commitIndex := commitIndex nd |}.

Definition observe (t : nat) (nd : Node) : Node :=
  if currentTerm nd <? t then stepDown t nd else nd.

(** Follower -> Candidate on election timeout: a new term, and a vote
    request to every member (the candidate included). *)
Definition startElection (n : NodeID) (nd : Node) : Node * Msg :=
  let t := S (currentTerm nd) in
  ({| role := Candidate; currentTerm := t; votedFor := None; votes := ∅;
      log := log nd; commitIndex := commitIndex nd |},
   RequestVoteMsg t n (lastLogIndex (log nd)) (lastLogTerm (log nd))).

Definition may_vote_for (c : NodeID) (nd : Node) : bool :=
  match votedFor nd with
  | None => true
  | Some c' => c' =? c
  end.

(** [requestVote(term, candidateID, lastLogIndex, lastLogTerm) -> granted]:
    one vote per term, granted only if the candidate's log is at least as
    up to date. *)
Definition requestVote (n : NodeID) (nd : Node)
    (t : nat) (c : NodeID) (lli llt : nat) : Node * Msg :=
  if t <? currentTerm nd then (nd, VoteMsg (currentTerm nd) n c false)
  else
    let nd1 := observe t nd in
    if may_vote_for c nd1 && upToDate lli llt (log nd1) then
      ({| role := role nd1; currentTerm := currentTerm nd1;
          votedFor := Some c; votes := votes nd1;
          log := log nd1; commitIndex := commitIndex nd1 |},
       VoteMsg t n c true)
    else (nd1, VoteMsg t n c false).

Definition is_Candidate (r : Role) : bool :=
  match r with Candidate => true | _ => false end.

Definition is_Leader (r : Role) : bool :=
  match r with Leader => true | _ => false end.

(** A vote reaches node [n]: Candidate -> Leader on majority votes within
    the same term. *)
Definition receiveVote (members : gset NodeID) (n : NodeID) (nd : Node)
    (t : nat) (v c : NodeID) (granted : bool) : Node :=
  if currentTerm nd <? t then stepDown t nd
  else if (n =? c) && is_Candidate (role nd) && (t =? currentTerm nd) && granted
  then
    let vs := votes nd ∪ {[v]} in
    {| role := if quorum members vs then Leader else Candidate;
       currentTerm := currentTerm nd; votedFor := votedFor nd; votes := vs;
       log := log nd; commitIndex := commitIndex nd |}
  else nd.

(** The entries already present from some index on, merged with the ones
    received: a conflicting suffix is dropped. *)
Fixpoint merge (existing new : list LogEntry) : list LogEntry :=
  match new with
  | [] => existing
  | e :: new' =>
      match existing with
      | [] => new
      | x :: existing' =>
          if entryTerm x =? entryTerm e then x :: merge existing' new'
          else new
      end
  end.

(** [appendEntries(term, leaderID, prevLogIndex, prevLogTerm, entries,
    leaderCommit)]: rejects on stale term or log-matching mismatch at
    [prevLogIndex]; on success truncates any conflicting suffix, appends,
    and advances the commit index to min(leaderCommit, lastNewIndex). *)
Definition appendEntries (nd : Node) (t : nat) (prev prevTerm : nat)
    (entries : list LogEntry) (leaderCommit : nat) : Node :=
  if t <? currentTerm nd then nd
  else
    let nd1 := observe t nd in
    if (prev <=? length (log nd1)) && (termAt (log nd1) prev =? prevTerm) then
      {| role := role nd1; currentTerm := currentTerm nd1;
         votedFor := votedFor nd1; votes := votes nd1;
         log := take prev (log nd1) ++ merge (drop prev (log nd1)) entries;
         commitIndex := commitIndex nd1
                        `max` (leaderCommit `min` (prev + length entries)) |}
    else nd1.

(** [propose(command)]: valid only on the Leader; appends locally. *)
Definition propose (nd : Node) (cmd : string) : option Node :=
  if is_Leader (role nd) then
    Some {| role := role nd; currentTerm := currentTerm nd;
            votedFor := votedFor nd; votes := votes nd;
            log := log nd ++ [{| entryTerm := currentTerm nd; command := cmd |}];
            commitIndex := commitIndex nd |}
  else None.

(** What a leader sends to replicate its log from index [prev] on (a
    heartbeat when nothing follows [prev]). *)
Definition replicate (n : NodeID) (nd : Node) (prev : nat) : option Msg :=
  if is_Leader (role nd) && (prev <=? length (log nd)) then
    Some (AppendEntriesMsg (currentTerm nd) n prev (termAt (log nd) prev)
                           (drop prev (log nd)) (commitIndex nd))
  else None.

(** A node fails and restarts: it is a Follower again and has lost its
    tally; its term, its vote and its log are durable. *)
Definition restart (nd : Node) : Node :=
  {| role := Follower; currentTerm := currentTerm nd; votedFor := votedFor nd;
     votes := ∅; log := log nd; commitIndex := 0 |}.

(** What can happen in the cluster. *)
Inductive Event :=
  | Timeout (n : NodeID)                 (* election timeout at n *)
  | Deliver (n : NodeID) (i : nat)       (* n receives the i-th message sent *)
  | Propose (n : NodeID) (cmd : string)
  | Replicate (n : NodeID) (prev : nat)  (* leader n sends appendEntries *)
  | Crash (n : NodeID).                  (* n fails and restarts *)

Definition put (n : NodeID) (nd : Node) (sent : list Msg)
    (won : list (nat * NodeID)) (c : Cluster) : Cluster :=
  {| peers := peers c;
     nodes := <[n := nd]> (nodes c);
     network := network c ++ sent;
     elected := elected c ++ won |}.

(** The message [m] is handled by node [n], in state [nd]. *)
Definition handle (c : Cluster) (n : NodeID) (nd : Node) (m : Msg) : Cluster :=
  match m with
  | RequestVoteMsg t cand lli llt =>
      let '(nd', reply) := requestVote n nd t cand lli llt in
      put n nd' [reply] [] c
  | VoteMsg t v cand granted =>
      let nd' := receiveVote (peers c) n nd t v cand granted in
      put n nd' []
          (if negb (is_Leader (role nd)) && is_Leader (role nd')
           then [(currentTerm nd', n)] else [])
          c
  | AppendEntriesMsg t l prev prevTerm entries leaderCommit =>
      put n (appendEntries nd t prev prevTerm entries leaderCommit) [] [] c
  end.

(** Modelled from the spec: the transitions of section 4.2, one event at
    a time; [None] when the event cannot happen in [c]. *)
Definition step (e : Event) (c : Cluster) : option Cluster :=
  match e with
  | Timeout n =>
      nd ← nodes c !! n;
      if is_Leader (role nd) then None
      else let '(nd', m) := startElection n nd in Some (put n nd' [m] [] c)
  | Deliver n i =>
      nd ← nodes c !! n;
      m ← network c !! i;
      Some (handle c n nd m)
  | Propose n cmd =>
      nd ← nodes c !! n;
      nd' ← propose nd cmd;
      Some (put n nd' [] [] c)
  | Replicate n prev =>
      nd ← nodes c !! n;
      m ← replicate n nd prev;
      Some (put n nd [m] [] c)
  | Crash n =>
      nd ← nodes c !! n;
      Some (put n (restart nd) [] [] c)
  end.

Fixpoint run (evs : list Event) (c : Cluster) : option Cluster :=
  match evs with
  | [] => Some c
  | e :: evs' => c' ← step e c; run evs' c'
  end.

(** A cluster of the given members before anything happened. *)
Definition init (members : gset NodeID) : Cluster :=
  {| peers := members;
     nodes := gset_to_gmap initNode members;
     network := [];
     elected := [] |}.

(** At most one leader per term: no term has two winners, and every node
    that is Leader now is the winner of its term. *)
Definition election_safe (c : Cluster) : Prop :=
  (∀ t a b, (t, a) ∈ elected c → (t, b) ∈ elected c → a = b) ∧
  (∀ a b na nb,
     nodes c !! a = Some na → nodes c !! b = Some nb →
     role na = Leader → role nb = Leader →
     currentTerm na = currentTerm nb → a = b).

(** Node [v] granted its vote of term [t] to [a]: the message was sent. *)
Definition granted (c : Cluster) (t : nat) (v a : NodeID) : Prop :=
  VoteMsg t v a true ∈ network c.

(** What every reachable cluster satisfies: only members have a state; a
    node grants one vote per term and remembers it while it is in that
    term; a tally holds only votes that were granted; every election was
    won with the votes of a quorum; every Leader won its term. *)
Record inv (c : Cluster) : Prop := {
  inv_dom : ∀ n nd, nodes c !! n = Some nd → n ∈ peers c;
  inv_once : ∀ t v a b, granted c t v a → granted c t v b → a = b;
  inv_voter : ∀ t v a, granted c t v a →
    ∃ nd, nodes c !! v = Some nd ∧ t ≤ currentTerm nd ∧
          (t = currentTerm nd → votedFor nd = Some a);
  inv_tally : ∀ a nd v, nodes c !! a = Some nd → v ∈ votes nd →
    granted c (currentTerm nd) v a;
  inv_elected : ∀ t a, (t, a) ∈ elected c →
    ∃ Q : gset NodeID, Q ⊆ peers c ∧ quorum (peers c) Q = true ∧
                       ∀ v, v ∈ Q → granted c t v a;
  inv_leader : ∀ a nd, nodes c !! a = Some nd → role nd = Leader →
    (currentTerm nd, a) ∈ elected c }.

(** An election in a cluster of three: node 0 times out, nodes 0 and 1
    grant it their vote, node 0 receives both and leads term 1; then node 1
    times out twice and node 2 crashes. *)
Definition sampleHistory : list Event :=
  [Timeout 0; Deliver 0 0; Deliver 1 0; Deliver 0 1; Deliver 0 2;
   Timeout 1; Timeout 1; Crash 2; Replicate 0 0; Deliver 2 5].

End Raft.

(** * Properties of the startup code *)

Module InfluxdProofs.
Import Influxd.
Local Open Scope list_scope.

Section Monad.
Context (H : Host).

Lemma events_prepend {A} evs (r : run (World H) A) :
  events (prepend evs r) = evs ++ events r.
Proof. by destruct r. Qed.

Lemma result_prepend {A} evs (r : run (World H) A) :
  result (prepend evs r) = result r.
Proof. by destruct r. Qed.

Lemma final_prepend {A} evs (r : run (World H) A) :
  final (prepend evs r) = final r.
Proof. by destruct r. Qed.

Lemma prepend_nil {A} (r : run (World H) A) : prepend [] r = r.
Proof. by destruct r. Qed.

Lemma result_bind {A B} (m : M H A) (f : A → M H B) w :
  result (bind m f w) =
  match result (m w) with
  | Ret a => result (f a (final (m w)))
  | Fatal msg => Fatal msg
  end.
Proof.
  unfold bind. destruct (m w) as [[a|msg] w1 e1]; simpl; [|done].
  apply result_prepend.
Qed.

Lemma events_bind {A B} (m : M H A) (f : A → M H B) w :
  events (bind m f w) =
  events (m w) ++ match result (m w) with
                  | Ret a => events (f a (final (m w)))
                  | Fatal _ => []
                  end.
Proof.
  unfold bind. destruct (m w) as [[a|msg] w1 e1]; simpl.
  - apply events_prepend.
  - by rewrite app_nil_r.
Qed.

Lemma final_bind {A B} (m : M H A) (f : A → M H B) w :
  final (bind m f w) =
  match result (m w) with
  | Ret a => final (f a (final (m w)))
  | Fatal _ => final (m w)
  end.
Proof.
  unfold bind. destruct (m w) as [[a|msg] w1 e1]; simpl; [|done].
  apply final_prepend.
Qed.

Lemma bind_pure {A B} (m : M H A) (f : A → M H B) w a :
  m w = Ran (Ret a) w [] → bind m f w = f a w.
Proof. intros E. unfold bind. rewrite E. apply prepend_nil. Qed.

(** *** Running a sequence one step at a time *)

Lemma run_tell {B} c (f : unit → M H B) w :
  bind (tell H c) f w = prepend [(c, None)] (f tt (exec H c w).1).
Proof. reflexivity. Qed.

Lemma run_call {B} c (f : option error → M H B) w :
  bind (call H c) f w =
  prepend [(c, (exec H c w).2)] (f (exec H c w).2 (exec H c w).1).
Proof. reflexivity. Qed.

Lemma run_ask {A B} (q : World H → A) (f : A → M H B) w :
  bind (ask q) f w = f (q w) w.
Proof. apply bind_pure. reflexivity. Qed.

Lemma run_ret {A B} (a : A) (f : A → M H B) w :
  bind (ret a) f w = f a w.
Proof. apply bind_pure. reflexivity. Qed.

Lemma run_fatal {A B} msg (f : A → M H B) w :
  bind (fatal msg) f w = Ran (Fatal msg) w [].
Proof. reflexivity. Qed.

Lemma run_bind {A B} (m : M H A) (f : A → M H B) w :
  bind m f w =
  match result (m w) with
  | Ret a => prepend (events (m w)) (f a (final (m w)))
  | Fatal msg => Ran (Fatal msg) (final (m w)) (events (m w))
  end.
Proof. unfold bind. by destruct (m w) as [[a|msg] w1 e1]. Qed.

Lemma bind_assoc {A B C} (m : M H A) (f : A → M H B) (g : B → M H C) w :
  bind (bind m f) g w = bind m (λ a, bind (f a) g) w.
Proof.
  unfold bind. destruct (m w) as [[a|msg] w1 e1]; simpl; [|done].
  destruct (f a w1) as [[b|msg] w2 e2]; simpl; [|done].
  destruct (g b w2) as [o w3 e3]; simpl. by rewrite app_assoc.
Qed.

(** *** Which calls a computation can make *)

Lemma emits_ret {A} P (a : A) : emits P (@ret H A a).
Proof. intros w. constructor. Qed.

Lemma emits_fatal {A} P msg : emits P (@fatal H A msg).
Proof. intros w. constructor. Qed.

Lemma emits_ask {A} P (q : World H → A) : emits P (ask q).
Proof. intros w. constructor. Qed.

Lemma emits_call (P : Call → Prop) c : P c → emits P (call H c).
Proof. intros HP w. by repeat constructor. Qed.

Lemma emits_tell (P : Call → Prop) c : P c → emits P (tell H c).
Proof. intros HP w. by repeat constructor. Qed.

Lemma emits_bind {A B} P (m : M H A) (f : A → M H B) :
  emits P m → (∀ a, emits P (f a)) → emits P (bind m f).
Proof.
  intros Hm Hf w. rewrite events_bind. unfold calls. rewrite fmap_app.
  apply Forall_app. split; [apply Hm|].
  destruct (result (m w)); [apply Hf|constructor].
Qed.

End Monad.

(** One step through the syntax of a computation. *)
Ltac emits_step :=
  lazymatch goal with
  | |- emits _ (ret _) => apply emits_ret
  | |- emits _ (fatal _) => apply emits_fatal
  | |- emits _ (ask _) => apply emits_ask
  | |- emits _ (tell _ _) => apply emits_tell; reflexivity
  | |- emits _ (call _ _) => apply emits_call; reflexivity
  | |- emits _ (bind _ _) => apply emits_bind; [|intros ?]
  | |- emits _ (match ?x with _ => _ end) =>
      first [is_var x; destruct x | destruct x eqn:?]
  end.

Section JoinLoops.
Context (H : Host).

Lemma joinLog_cons u us :
  joinLog H (u :: us) =
  (err <- call H (LogJoin u) ;;
   match err with Some _ => joinLog H us | None => ret tt end).
Proof. reflexivity. Qed.

Lemma joinServer_cons du u us :
  joinServer H du (u :: us) =
  (err <- call H (ServerJoin du u) ;;
   match err with Some _ => joinServer H du us | None => ret tt end).
Proof. reflexivity. Qed.

(** The shape of a run of [joinLog]: a prefix of the URLs was tried, in
    order; either the last try succeeded and all earlier ones failed, or all
    URLs were tried, all failed, and the process exited. *)
Lemma joinLog_run (us : list URL) (w : World H) :
  ∃ tried rest,
    us = tried ++ rest ∧
    calls (events (joinLog H us w)) = LogJoin <$> tried ∧
    ((result (joinLog H us w) =
        Fatal "join: failed to connect raft log to any specified server" ∧
      rest = [] ∧ Forall failed (events (joinLog H us w)))
     ∨
     (result (joinLog H us w) = Ret tt ∧
      ∃ evs u, events (joinLog H us w) = evs ++ [(LogJoin u, None)] ∧
               Forall failed evs)).
Proof.
  revert w. induction us as [|u us IH]; intros w.
  - exists [], []. simpl. split_and!; try done. left. by split_and!.
  - rewrite joinLog_cons, result_bind, events_bind. simpl.
    destruct (exec H (LogJoin u) w) as [w1 [e|]] eqn:E; simpl.
    + destruct (IH w1) as (tried & rest & -> & Hc & Hr).
      exists (u :: tried), rest. split_and!; [done| |].
      * unfold calls in *. simpl. by rewrite Hc.
      * destruct Hr as [(Hf & -> & Hall)|(Hok & evs & u' & Hev & Hall)].
        -- left. split_and!; [done..|]. constructor; [by eexists|done].
        -- right. split; [done|]. exists ((LogJoin u, Some e) :: evs), u'.
           rewrite Hev. split; [done|]. constructor; [by eexists|done].
    + exists [u], us. split_and!; [done..|].
      right. split; [done|]. by exists [], u.
Qed.

Lemma joinServer_run (du : URL) (us : list URL) (w : World H) :
  ∃ tried rest,
    us = tried ++ rest ∧
    calls (events (joinServer H du us w)) = ServerJoin du <$> tried ∧
    ((result (joinServer H du us w) =
        Fatal "join: failed to connect data node to any specified server" ∧
      rest = [] ∧ Forall failed (events (joinServer H du us w)))
     ∨
     (result (joinServer H du us w) = Ret tt ∧
      ∃ evs u, events (joinServer H du us w) = evs ++ [(ServerJoin du u, None)] ∧
               Forall failed evs)).
Proof.
  revert w. induction us as [|u us IH]; intros w.
  - exists [], []. simpl. split_and!; try done. left. by split_and!.
  - rewrite joinServer_cons, result_bind, events_bind. simpl.
    destruct (exec H (ServerJoin du u) w) as [w1 [e|]] eqn:E; simpl.
    + destruct (IH w1) as (tried & rest & -> & Hc & Hr).
      exists (u :: tried), rest. split_and!; [done| |].
      * unfold calls in *. simpl. by rewrite Hc.
      * destruct Hr as [(Hf & -> & Hall)|(Hok & evs & u' & Hev & Hall)].
        -- left. split_and!; [done..|]. constructor; [by eexists|done].
        -- right. split; [done|]. exists ((ServerJoin du u, Some e) :: evs), u'.
           rewrite Hev. split; [done|]. constructor; [by eexists|done].
    + exists [u], us. split_and!; [done..|].
      right. split; [done|]. by exists [], u.
Qed.

Lemma emits_joinLog (P : Call → Prop) us :
  (∀ u, P (LogJoin u)) → emits P (joinLog H us).
Proof.
  intros HP. induction us as [|u us IH]; [apply emits_fatal|].
  rewrite joinLog_cons. apply emits_bind; [by apply emits_call|].
  intros [e|]; [done|apply emits_ret].
Qed.

Lemma emits_joinServer (P : Call → Prop) du us :
  (∀ u, P (ServerJoin du u)) → emits P (joinServer H du us).
Proof.
  intros HP. induction us as [|u us IH]; [apply emits_fatal|].
  rewrite joinServer_cons. apply emits_bind; [by apply emits_call|].
  intros [e|]; [done|apply emits_ret].
Qed.

Lemma emits_parseURLs_loop (P : Call → Prop) pieces a :
  emits P (parseURLs_loop H pieces a).
Proof.
  revert a. induction pieces as [|s pieces IH]; intros a; simpl.
  - apply emits_ret.
  - destruct (url_Parse H s); [apply IH|apply emits_fatal].
Qed.

Lemma emits_parseURLs (P : Call → Prop) s : emits P (parseURLs H s).
Proof.
  unfold parseURLs. destruct (String.eqb s "");
    [apply emits_ret|apply emits_parseURLs_loop].
Qed.

End JoinLoops.

(** *** Membership in a list of events *)

Lemma not_in_calls (P : Call → bool) (cs : list Call) c :
  Forall (λ c, P c = false) cs → P c = true → c ∉ cs.
Proof.
  intros Hall Hc Hin. rewrite Forall_forall in Hall.
  specialize (Hall _ Hin). congruence.
Qed.

Lemma not_in_events (P : Call → bool) (evs : list Event) c e :
  Forall (λ c, P c = false) (calls evs) → P c = true → (c, e) ∉ evs.
Proof.
  intros Hall Hc Hin. apply (not_in_calls P (calls evs) c Hall Hc).
  unfold calls. by apply (list_elem_of_fmap_2 fst) in Hin.
Qed.

Lemma not_in_fmap_calls (f : URL → Call) (P : Call → bool) (evs : list Event)
    tried c :
  calls evs = f <$> tried → (∀ u, P (f u) = true) → P c = false → c ∉ calls evs.
Proof.
  intros -> Hf Hc [u [-> _]]%list_elem_of_fmap. specialize (Hf u). congruence.
Qed.

Lemma failed_not_ok (evs : list Event) c :
  Forall failed evs → (c, None) ∉ evs.
Proof.
  intros Hall Hin. rewrite Forall_forall in Hall.
  destruct (Hall _ Hin) as [? ?]. done.
Qed.

Ltac kill_mem :=
  repeat match goal with
         | H : _ ∈ [] |- _ => by apply elem_of_nil in H
         | H : _ ∈ _ :: _ |- _ =>
             apply elem_of_cons in H as [H|H]; [try discriminate H|]
         | H : _ ∈ _ ++ _ |- _ => apply elem_of_app in H as [H|H]
         | H : ?x ∈ ?l, Hn : ?x ∉ ?l |- _ => by destruct (Hn H)
         end.

Ltac find_mem :=
  repeat first [ apply list_elem_of_here
               | apply list_elem_of_further
               | apply elem_of_app; left ].

(** One statement of a sequence; a call is split on the error it returns. *)
Ltac run_step H :=
  first
    [ rewrite run_tell
    | rewrite run_call;
      match goal with
      | |- context [exec H ?c ?w] => destruct (exec H c w) as [? [?|]]
      end
    | rewrite run_ask
    | rewrite run_ret
    | rewrite run_fatal
    | rewrite bind_assoc ];
  cbn [fst snd].

Ltac run_read :=
  unfold tell, call, ret, fatal;
  rewrite ?events_prepend, ?result_prepend, ?final_prepend;
  cbn [events result final app fst snd].

Ltac mem_solve :=
  unfold calls in *; rewrite ?fmap_app in *; cbn [fmap list_fmap fst] in *;
  split; intros; destruct_and?; kill_mem; try done;
  split_and?; try done; find_mem.

Section RunFacts.
Context (H : Host) (G : Globals) (api : ConfigAPI).

Lemma fileExists_run path w :
  fileExists H path w = Ran (Ret (negb (os_Stat_IsNotExist H path w))) w [].
Proof.
  unfold fileExists. rewrite run_ask.
  by destruct (os_Stat_IsNotExist H path w).
Qed.

(** The flags are read off the two directories and nothing else happens. *)
Lemma initFlags_run config w :
  initFlags H api config w =
  Ran (Ret (os_Stat_IsNotExist H (BrokerDir api config) w,
            os_Stat_IsNotExist H (DataDir api config) w
            || os_Stat_IsNotExist H (BrokerDir api config) w)) w [].
Proof.
  unfold initFlags.
  rewrite (bind_pure _ _ _ _ _ (fileExists_run _ _)).
  rewrite (bind_pure _ _ _ _ _ (fileExists_run _ _)).
  unfold ret. by rewrite !negb_involutive.
Qed.

(** Parsing makes no call and leaves the world alone. *)
Lemma parseURLs_loop_quiet pieces a w :
  events (parseURLs_loop H pieces a w) = [] ∧
  final (parseURLs_loop H pieces a w) = w.
Proof.
  revert a. induction pieces as [|s pieces IH]; intros a; simpl; [done|].
  destruct (url_Parse H s); [apply IH|done].
Qed.

Lemma parseURLs_quiet s w :
  events (parseURLs H s w) = [] ∧ final (parseURLs H s w) = w.
Proof.
  unfold parseURLs. destruct (String.eqb s ""); [done|].
  apply parseURLs_loop_quiet.
Qed.

Lemma runJoinURLs_quiet config join w :
  events (runJoinURLs H api config join w) = [] ∧
  final (runJoinURLs H api config join w) = w.
Proof.
  unfold runJoinURLs. destruct (String.eqb join ""); apply parseURLs_quiet.
Qed.

(** A non-empty string never parses to an empty list of URLs. *)
Lemma split_comma_cons s : ∃ p ps, split_comma s = p :: ps.
Proof.
  induction s as [|c s (p & ps & IH)]; simpl; [by eexists _, _|].
  destruct (Ascii.eqb c ","); [by eexists _, _|].
  rewrite IH. by eexists _, _.
Qed.

Lemma parseURLs_loop_length pieces a w us :
  result (parseURLs_loop H pieces a w) = Ret us →
  length us = length a + length pieces.
Proof.
  revert a. induction pieces as [|s pieces IH]; intros a; simpl.
  - intros [= <-]. lia.
  - destruct (url_Parse H s); [|done].
    intros Hr. rewrite (IH _ Hr), length_app. simpl. lia.
Qed.

Lemma parseURLs_nil s w : result (parseURLs H s w) = Ret [] → s = "".
Proof.
  unfold parseURLs. destruct (String.eqb s "") eqn:E.
  - intros _. by apply String.eqb_eq.
  - intros Hr%parseURLs_loop_length.
    destruct (split_comma_cons s) as (p & ps & Hs). rewrite Hs in Hr.
    simpl in Hr. lia.
Qed.

Lemma runJoinURLs_nil config join w :
  result (runJoinURLs H api config join w) = Ret [] ↔
  join = "" ∧ JoinURLs api config = "".
Proof.
  unfold runJoinURLs. split.
  - destruct (String.eqb join "") eqn:E.
    + apply String.eqb_eq in E. intros Hr%parseURLs_nil. done.
    + intros Hr%parseURLs_nil. subst. done.
  - intros [-> ->]. reflexivity.
Qed.

(** [Run] is [runNode] on the flags read from the two directories and the
    parsed join URLs; a URL that does not parse ends the process before
    anything is opened. *)
Lemma Run_run config join version w :
  Run H G api config join version w =
  match result (runJoinURLs H api config join w) with
  | Ret joinURLs =>
      runNode H G api config
        (os_Stat_IsNotExist H (BrokerDir api config) w)
        (os_Stat_IsNotExist H (DataDir api config) w
         || os_Stat_IsNotExist H (BrokerDir api config) w)
        joinURLs w
  | Fatal msg => Ran (Fatal msg) w []
  end.
Proof.
  unfold Run.
  rewrite (bind_pure _ _ _ _ _ (initFlags_run config w)). cbn [fst snd].
  rewrite run_bind.
  destruct (runJoinURLs_quiet config join w) as [-> ->].
  destruct (result (runJoinURLs H api config join w)); [|done].
  apply prepend_nil.
Qed.

Lemma emits_runJoinURLs (P : Call → Prop) config join :
  emits P (runJoinURLs H api config join).
Proof. unfold runJoinURLs. destruct (String.eqb join ""); apply emits_parseURLs. Qed.

Lemma emits_runGraphites (P : Call → bool) config cs :
  (∀ c, broker_phase c = false → is_Initialize c = false → P c = false) →
  emits (λ c, P c = false) (runGraphites H api config cs).
Proof.
  intros HP. induction cs as [|c cs IH]; simpl; [apply emits_ret|].
  destruct (Graphite_Enabled c); simpl; [|done].
  repeat lazymatch goal with
         | |- emits _ (call _ _) => apply emits_call; by apply HP
         | |- _ => emits_step
         end.
  done.
Qed.

Lemma emits_runServices (P : Call → bool) config :
  (∀ c, broker_phase c = false → is_Initialize c = false → P c = false) →
  emits (λ c, P c = false) (runServices H G api config).
Proof.
  intros HP. unfold runServices.
  repeat lazymatch goal with
         | |- emits _ (runGraphites _ _ _ _) => apply emits_runGraphites; exact HP
         | |- emits _ (call _ _) => apply emits_call; by apply HP
         | |- emits _ (tell _ _) => apply emits_tell; by apply HP
         | |- _ => emits_step
         end.
Qed.

(** With [initializing = false], [openBroker] only opens the broker and the
    raft log. *)
Lemma emits_openBroker_existing path u joinURLs raftTracing :
  emits (λ c, bootstraps c = false)
        (openBroker H path u false joinURLs raftTracing).
Proof. unfold openBroker. repeat emits_step. Qed.

(** With [initBroker = false], [openServer] never initializes the server;
    it may still join it. *)
Lemma emits_openServer_existing config initServer joinURLs :
  emits (λ c, bootstraps c = false)
        (openServer H G api config initServer false joinURLs).
Proof.
  unfold openServer.
  repeat lazymatch goal with
         | |- emits _ (joinServer _ _ _) => apply emits_joinServer; reflexivity
         | |- _ => emits_step
         end.
Qed.

Lemma emits_runNode_existing config initServer joinURLs :
  emits (λ c, bootstraps c = false)
        (runNode H G api config false initServer joinURLs).
Proof.
  unfold runNode.
  repeat lazymatch goal with
         | |- emits _ (openBroker _ _ _ _ _ _) => apply emits_openBroker_existing
         | |- emits _ (openServer _ _ _ _ _ _ _) => apply emits_openServer_existing
         | |- emits _ (runServices _ _ _ _) => apply emits_runServices; by intros []
         | |- _ => emits_step
         end.
Qed.

(** With join URLs, nothing is initialized: the broker and the server join. *)
Lemma emits_openBroker_joining path u initializing u0 us raftTracing :
  emits (λ c, is_Initialize c = false)
        (openBroker H path u initializing (u0 :: us) raftTracing).
Proof.
  unfold openBroker.
  repeat lazymatch goal with
         | |- emits _ (joinLog _ _) => apply emits_joinLog; reflexivity
         | |- _ => emits_step
         end.
Qed.

Lemma emits_openServer_joining config initServer initBroker u0 us :
  emits (λ c, is_Initialize c = false)
        (openServer H G api config initServer initBroker (u0 :: us)).
Proof.
  unfold openServer.
  repeat lazymatch goal with
         | |- emits _ (joinServer _ _ _) => apply emits_joinServer; reflexivity
         | |- _ => emits_step
         end.
Qed.

Lemma emits_runNode_joining config initBroker initServer u0 us :
  emits (λ c, is_Initialize c = false)
        (runNode H G api config initBroker initServer (u0 :: us)).
Proof.
  unfold runNode.
  repeat lazymatch goal with
         | |- emits _ (openBroker _ _ _ _ _ _) => apply emits_openBroker_joining
         | |- emits _ (openServer _ _ _ _ _ _ _) => apply emits_openServer_joining
         | |- emits _ (runServices _ _ _ _) => apply emits_runServices; by intros []
         | |- _ => emits_step
         end.
Qed.

(** What [openServer] does never touches the broker or the raft log. *)
Lemma emits_openServer_phase config initServer initBroker joinURLs :
  emits (λ c, broker_phase c = false)
        (openServer H G api config initServer initBroker joinURLs).
Proof.
  unfold openServer.
  repeat lazymatch goal with
         | |- emits _ (joinServer _ _ _) => apply emits_joinServer; reflexivity
         | |- _ => emits_step
         end.
Qed.

(** [runNode] first runs [openBroker]; nothing after it calls the broker's
    or the raft log's opening, initialization or join again. *)
Lemma runNode_events config initBroker initServer joinURLs w :
  ∃ rest,
    events (runNode H G api config initBroker initServer joinURLs w) =
    events (openBroker H (BrokerDir api config) (BrokerURL api config)
              initBroker joinURLs (Logging_RaftTracing (Logging config)) w)
    ++ rest ∧
    Forall (λ c, broker_phase c = false) (calls rest).
Proof.
  unfold runNode. rewrite events_bind. eexists. split; [reflexivity|].
  destruct (result _); [|constructor].
  lazymatch goal with
  | |- Forall ?P (calls (events (bind ?m ?f ?w'))) =>
      generalize w'; change (emits P (bind m f))
  end.
  repeat lazymatch goal with
         | |- emits _ (openServer _ _ _ _ _ _ _) => apply emits_openServer_phase
         | |- emits _ (runServices _ _ _ _) => apply emits_runServices; by intros []
         | |- _ => emits_step
         end.
Qed.

End RunFacts.

Section BrokerFacts.
Context (H : Host).

(** [openBroker] calls [l.Initialize] exactly when it was told the broker
    is new, there is no join URL, and both opens returned nil. *)
Lemma openBroker_initializes path u initializing joinURLs raftTracing w :
  LogInitialize
    ∈ calls (events (openBroker H path u initializing joinURLs raftTracing w)) ↔
  initializing = true ∧ joinURLs = [] ∧
  (BrokerOpen path, None)
    ∈ events (openBroker H path u initializing joinURLs raftTracing w) ∧
  (LogOpen (filepath_Join H path "raft"), None)
    ∈ events (openBroker H path u initializing joinURLs raftTracing w).
Proof.
  unfold openBroker.
  do 5 run_step H; [run_read; mem_solve|].
  do 2 run_step H; [run_read; mem_solve|].
  destruct initializing; [|run_read; mem_solve].
  destruct joinURLs as [|u0 us].
  - run_step H; run_read; mem_solve.
  - match goal with
    | |- context [joinLog H ?l ?w'] =>
        destruct (joinLog_run H l w') as (tried & rest & _ & Hc & _);
        pose proof (not_in_fmap_calls LogJoin is_LogJoin _ _ LogInitialize
                      Hc (λ _, eq_refl) eq_refl) as Hn;
        destruct (joinLog H l w') as [[[]|msg] wf evs]
    end.
    all: run_read; mem_solve.
Qed.

End BrokerFacts.

(** C1 (as amended).  When the broker directory exists, [Run] calls neither
    [Initialize] nor [Join] on the raft log and never [Initialize] on the
    server, whatever the join flag and the configuration say: for the broker,
    the state on disk wins over the join URLs.  (The join URLs are still
    parsed and used afterwards, see [existing_broker_still_joins_server].) *)
Theorem existing_broker_is_not_bootstrapped
    (H : Host) (G : Globals) (api : ConfigAPI)
    (config : Config) (join version : string) (w : World H) :
  os_Stat_IsNotExist H (BrokerDir api config) w = false →
  Forall (λ c, bootstraps c = false)
         (calls (events (Run H G api config join version w))).
Proof.
  intros Hexists. rewrite Run_run, Hexists.
  destruct (result _); [|constructor].
  apply emits_runNode_existing.
Qed.

(** C3 (as amended).  [Run] calls [l.Initialize] exactly when the broker
    directory does not exist, the join URL list is empty, and the broker and
    the raft log both opened without error; and no [Initialize], of the raft
    log or of the server, is called in any startup in which the broker
    directory exists or a join URL was given. *)
Theorem initialize_only_bootstraps_fresh_node
    (H : Host) (G : Globals) (api : ConfigAPI)
    (config : Config) (join version : string) (w : World H) :
  (LogInitialize ∈ calls (events (Run H G api config join version w)) ↔
     os_Stat_IsNotExist H (BrokerDir api config) w = true ∧
     result (runJoinURLs H api config join w) = Ret [] ∧
     (BrokerOpen (BrokerDir api config), None)
       ∈ events (Run H G api config join version w) ∧
     (LogOpen (filepath_Join H (BrokerDir api config) "raft"), None)
       ∈ events (Run H G api config join version w))
  ∧
  (∀ c, c ∈ calls (events (Run H G api config join version w)) →
        is_Initialize c = true →
        os_Stat_IsNotExist H (BrokerDir api config) w = true ∧
        result (runJoinURLs H api config join w) = Ret []).
Proof.
  rewrite Run_run.
  destruct (result (runJoinURLs H api config join w)) as [us|msg];
    [|cbn [events]; split; [mem_solve|intros c Hc; by apply elem_of_nil in Hc]].
  split.
  - destruct (runNode_events H G api config
                (os_Stat_IsNotExist H (BrokerDir api config) w)
                (os_Stat_IsNotExist H (DataDir api config) w
                 || os_Stat_IsNotExist H (BrokerDir api config) w) us w)
      as (rest & -> & Hrest).
    pose proof (openBroker_initializes H (BrokerDir api config)
                  (BrokerURL api config)
                  (os_Stat_IsNotExist H (BrokerDir api config) w) us
                  (Logging_RaftTracing (Logging config)) w) as Hb.
    pose proof (not_in_calls broker_phase _ LogInitialize Hrest eq_refl) as N1.
    pose proof (not_in_events broker_phase rest
                  (BrokerOpen (BrokerDir api config)) None Hrest eq_refl) as N2.
    pose proof (not_in_events broker_phase rest
                  (LogOpen (filepath_Join H (BrokerDir api config) "raft"))
                  None Hrest eq_refl) as N3.
    unfold calls in *. rewrite fmap_app, !elem_of_app.
    split.
    + intros [Hin|Hin]; [|done].
      apply Hb in Hin as (? & -> & ? & ?). tauto.
    + intros (Hm & [= ->] & [Ho|Ho] & [Hl|Hl]); try done.
      left. apply Hb. tauto.
  - intros c Hc Hi.
    destruct (os_Stat_IsNotExist H (BrokerDir api config) w) eqn:Hm.
    + destruct us as [|u0 us]; [done|].
      pose proof (emits_runNode_joining H G api config true
                    (os_Stat_IsNotExist H (DataDir api config) w || true)
                    u0 us w) as Hall.
      by destruct (not_in_calls is_Initialize _ c Hall Hi).
    + pose proof (emits_runNode_existing H G api config
                    (os_Stat_IsNotExist H (DataDir api config) w || false)
                    us w) as Hall.
      assert (bootstraps c = true) as Hb by (by destruct c).
      by destruct (not_in_calls bootstraps _ c Hall Hb).
Qed.

Section Exhaustion.
Context (H : Host).

Lemma last_not_failed (evs : list Event) c :
  ¬ Forall failed (evs ++ [(c, None)]).
Proof.
  rewrite Forall_app, Forall_singleton. unfold failed, is_Some. simpl.
  intros [_ [x Hx]]. discriminate.
Qed.

Lemma joinLog_exhausted us w :
  (Forall failed (events (joinLog H us w)) ↔
   result (joinLog H us w) =
     Fatal "join: failed to connect raft log to any specified server") ∧
  (exited (joinLog H us w) →
   calls (events (joinLog H us w)) = LogJoin <$> us).
Proof.
  destruct (joinLog_run H us w)
    as (tried & rest & Hus & Hc & [(Hf & -> & Hall)|(Hok & evs & u' & Hev & Hall)]).
  - rewrite app_nil_r in Hus. subst. by split.
  - rewrite Hok, Hev. split; [split; [|done]|].
    + intros Hl. by destruct (last_not_failed _ _ Hl).
    + intros [msg Hm]. congruence.
Qed.

Lemma joinServer_exhausted u us w :
  (Forall failed (events (joinServer H u us w)) ↔
   result (joinServer H u us w) =
     Fatal "join: failed to connect data node to any specified server") ∧
  (exited (joinServer H u us w) →
   calls (events (joinServer H u us w)) = ServerJoin u <$> us).
Proof.
  destruct (joinServer_run H u us w)
    as (tried & rest & Hus & Hc & [(Hf & -> & Hall)|(Hok & evs & u' & Hev & Hall)]).
  - rewrite app_nil_r in Hus. subst. by split.
  - rewrite Hok, Hev. split; [split; [|done]|].
    + intros Hl. by destruct (last_not_failed _ _ Hl).
    + intros [msg Hm]. congruence.
Qed.

End Exhaustion.

(** C2 (as amended).  [joinLog] and [joinServer] have no error result.
    When every join attempt they made failed, which happens only after every
    URL of the list was tried in order, they end the process with
    [log.Fatalf]; and that is the only way they end it. *)
Theorem join_exhaustion_exits_process
    (H : Host) (u : URL) (joinURLs : list URL) (w : World H) :
  (Forall failed (events (joinLog H joinURLs w)) ↔
   result (joinLog H joinURLs w) =
     Fatal "join: failed to connect raft log to any specified server") ∧
  (exited (joinLog H joinURLs w) →
   calls (events (joinLog H joinURLs w)) = LogJoin <$> joinURLs) ∧
  (Forall failed (events (joinServer H u joinURLs w)) ↔
   result (joinServer H u joinURLs w) =
     Fatal "join: failed to connect data node to any specified server") ∧
  (exited (joinServer H u joinURLs w) →
   calls (events (joinServer H u joinURLs w)) = ServerJoin u <$> joinURLs).
Proof.
  destruct (joinLog_exhausted H joinURLs w) as [? ?].
  destruct (joinServer_exhausted H u joinURLs w) as [? ?].
  by split_and!.
Qed.

(** C4. [joinLog] probes the join URLs in the order given: the [l.Join]
    calls it makes are exactly a prefix [tried] of the list, one call per
    URL; when it returns, the last call succeeded, every earlier one failed
    and no URL after it was contacted; it declares failure (and exits) only
    after every URL of the list was tried and failed. *)
Theorem joinLog_probes_in_order (H : Host) (joinURLs : list URL) (w : World H) :
  ∃ tried rest,
    joinURLs = tried ++ rest ∧
    calls (events (joinLog H joinURLs w)) = LogJoin <$> tried ∧
    ((result (joinLog H joinURLs w) =
        Fatal "join: failed to connect raft log to any specified server" ∧
      rest = [] ∧ Forall failed (events (joinLog H joinURLs w)))
     ∨
     (result (joinLog H joinURLs w) = Ret tt ∧
      ∃ evs u, events (joinLog H joinURLs w) = evs ++ [(LogJoin u, None)] ∧
               Forall failed evs)).
Proof. apply joinLog_run. Qed.

Ltac exit_now := by eexists.

Section Failures.
Context (H : Host) (G : Globals) (api : ConfigAPI).

Lemma in_fmap_calls (f : URL → Call) (evs : list Event) tried c e :
  calls evs = f <$> tried → (c, e) ∈ evs → ∃ u, c = f u.
Proof.
  intros Hc Hin. apply (list_elem_of_fmap_2 fst) in Hin.
  unfold calls in Hc. rewrite Hc in Hin.
  apply list_elem_of_fmap in Hin as (u & ? & _). by exists u.
Qed.

Lemma Forall_fmap_calls (f : URL → Call) (P : Call → Prop) (evs : list Event) tried :
  calls evs = f <$> tried → (∀ u, P (f u)) → Forall P (calls evs).
Proof.
  intros -> HP. apply Forall_fmap, Forall_forall. intros u _. apply HP.
Qed.

(** In [openBroker]: an open or an initialize that fails ends the process;
    so does a join when no URL accepts; and the process is ended only after
    a call that failed. *)
Lemma openBroker_failures path u initializing joinURLs raftTracing w :
  let rb := openBroker H path u initializing joinURLs raftTracing w in
  (∀ c e, (c, Some e) ∈ events rb → is_LogJoin c = false → exited rb) ∧
  (initializing = true → joinURLs ≠ [] →
   (∀ u', (LogJoin u', None) ∉ events rb) → exited rb) ∧
  (exited rb → ∃ c e, (c, Some e) ∈ events rb).
Proof.
  cbv zeta. unfold openBroker.
  do 5 run_step H.
  { run_read. split_and!; intros; try exit_now. eexists _, _. find_mem. }
  do 2 run_step H.
  { run_read. split_and!; intros; try exit_now. eexists _, _. find_mem. }
  destruct initializing.
  2:{ run_read. split_and!; [intros; kill_mem|done|intros [? ?]; done]. }
  destruct joinURLs as [|u0 us].
  - run_step H; run_read.
    + split_and!; intros; try exit_now. eexists _, _. find_mem.
    + split_and!; [intros; kill_mem|done|intros [? ?]; done].
  - match goal with
    | |- context [joinLog H ?l ?w'] =>
        destruct (joinLog_run H l w')
          as (tried & rest & Hus & Hc
              & [(Hf & -> & Hall)|(Hok & evs & u' & Hev & Hall)]);
        destruct (joinLog H l w') as [o wf jevs]
    end; cbn [events result] in *; subst; run_read.
    + split_and!; intros; try exit_now.
      rewrite app_nil_r in Hus. subst tried.
      destruct jevs as [|[c0 [e0|]] jevs']; [done| |].
      * eexists _, _. find_mem.
      * apply Forall_cons in Hall as [[? ?] _]. done.
    + split_and!.
      * intros c e Hin Hj. kill_mem.
        -- assert ((c, Some e) ∈ evs ++ [(LogJoin u', None)]) as Hin'
             by (apply elem_of_app; by left).
           destruct (in_fmap_calls LogJoin _ _ _ _ Hc Hin') as [? ->]. done.
      * intros _ _ Hno. destruct (Hno u').
        repeat apply list_elem_of_further. apply elem_of_app. right. left.
      * intros [? ?]; done.
Qed.

(** The same for [openServer], which also ends the process when the opened
    client holds no broker URL. *)
Lemma openServer_failures config initServer initBroker joinURLs w :
  let rs := openServer H G api config initServer initBroker joinURLs w in
  (∀ c e, (c, Some e) ∈ events rs → is_ServerJoin c = false → exited rs) ∧
  (initServer = true → joinURLs ≠ [] →
   (∀ u', (ServerJoin (DataURL api config) u', None) ∉ events rs) → exited rs) ∧
  (exited rs →
   (∃ c e, (c, Some e) ∈ events rs) ∨ client_URLs H (final rs) = []).
Proof.
  cbv zeta. unfold openServer.
  match goal with
  | |- context [bind ?m _ w] =>
      assert (∃ urls, m w = Ran (Ret urls) w []) as [urls Hm]
        by (destruct joinURLs; [rewrite run_ask|]; by eexists)
  end.
  rewrite (bind_pure _ _ _ _ _ Hm). clear Hm.
  do 3 run_step H.
  { run_read. split_and!; intros; try exit_now. left. eexists _, _. find_mem. }
  run_step H.
  match goal with
  | |- context [client_URLs H ?w'] => destruct (client_URLs H w') eqn:Hurls
  end.
  { run_read. split_and!; intros; try exit_now. by right. }
  do 2 run_step H.
  { run_read. split_and!; intros; try exit_now. left. eexists _, _. find_mem. }
  destruct initServer.
  2:{ run_read. split_and!; [intros; kill_mem|done|intros [? ?]; done]. }
  destruct joinURLs as [|u0 us].
  - destruct initBroker.
    2:{ run_read. split_and!; [intros; kill_mem|done|intros [? ?]; done]. }
    do 2 run_step H; run_read.
    + split_and!; intros; try exit_now. left. eexists _, _. find_mem.
    + split_and!; [intros; kill_mem|done|intros [? ?]; done].
  - match goal with
    | |- context [joinServer H ?du ?l ?w'] =>
        destruct (joinServer_run H du l w')
          as (tried & rest & Hus & Hc
              & [(Hf & -> & Hall)|(Hok & evs & u' & Hev & Hall)]);
        destruct (joinServer H du l w') as [o wf jevs]
    end; cbn [events result] in *; subst; run_read.
    + split_and!; intros; try exit_now.
      rewrite app_nil_r in Hus. subst tried.
      destruct jevs as [|[c0 [e0|]] jevs']; [done| |].
      * left. eexists _, _. find_mem.
      * apply Forall_cons in Hall as [[? ?] _]. done.
    + split_and!.
      * intros c e Hin Hj. kill_mem.
        -- assert ((c, Some e) ∈ evs ++ [(ServerJoin (DataURL api config) u', None)])
             as Hin' by (apply elem_of_app; by left).
           destruct (in_fmap_calls (ServerJoin (DataURL api config))
                       _ _ _ _ Hc Hin') as [? ->]. done.
      * intros _ _ Hno. destruct (Hno u').
        repeat apply list_elem_of_further. apply elem_of_app. right. left.
      * intros [? ?]; done.
Qed.

End Failures.

(** C6 (as amended).  [openBroker] and [openServer] have no error result:
    every failing step of the broker and server startup is handled inside
    them by [log.Fatal]/[log.Fatalf], which ends the process.  A failed
    open or initialize ends it, a join that no URL accepts ends it, and they
    end it only after a failed call (or, for [openServer], when the opened
    messaging client has no broker URL); otherwise they return. *)
Theorem startup_failures_end_the_process
    (H : Host) (G : Globals) (api : ConfigAPI)
    (path : string) (u : URL) (initializing raftTracing : bool)
    (config : Config) (initServer initBroker : bool)
    (joinURLs : list URL) (w : World H) :
  let rb := openBroker H path u initializing joinURLs raftTracing w in
  let rs := openServer H G api config initServer initBroker joinURLs w in
  ((∀ c e, (c, Some e) ∈ events rb → is_LogJoin c = false → exited rb) ∧
   (initializing = true → joinURLs ≠ [] →
    (∀ u', (LogJoin u', None) ∉ events rb) → exited rb) ∧
   (exited rb → ∃ c e, (c, Some e) ∈ events rb)) ∧
  ((∀ c e, (c, Some e) ∈ events rs → is_ServerJoin c = false → exited rs) ∧
   (initServer = true → joinURLs ≠ [] →
    (∀ u', (ServerJoin (DataURL api config) u', None) ∉ events rs) → exited rs) ∧
   (exited rs →
    (∃ c e, (c, Some e) ∈ events rs) ∨ client_URLs H (final rs) = [])).
Proof.
  split; [apply openBroker_failures|apply openServer_failures].
Qed.

(** C7. [openServer] creates the messaging client and seeds it, before
    anything else, with a non-empty list of broker URLs: the join URLs when
    there are any, otherwise the broker's own URL; it sets the URLs only
    once; and if the client holds no URL once it is opened, the process
    ends there, before any server is created. *)
Theorem messaging_client_has_brokers (H : Host) (G : Globals) (api : ConfigAPI)
    config initServer initBroker joinURLs w :
  let urls := match joinURLs with
              | [] => [broker_URL H w]
              | _ :: _ => joinURLs
              end in
  let opening := [NewMessagingClient (DataURL api config);
                  ClientSetURLs urls;
                  ClientOpen (filepath_Join H (Data_Dir (Data config))
                                            (messagingClientFile G))] in
  let r := openServer H G api config initServer initBroker joinURLs w in
  urls ≠ [] ∧
  (∃ rest, calls (events r) = opening ++ rest ∧
           Forall (λ c, is_ClientSetURLs c = false) rest) ∧
  (client_URLs H (after H opening w) = [] →
   exited r ∧ calls (events r) = opening).
Proof.
  cbv zeta. split; [by destruct joinURLs|].
  unfold openServer.
  match goal with
  | |- context [bind ?m _ w] =>
      assert (m w = Ran (Ret (match joinURLs with
                              | [] => [broker_URL H w]
                              | _ :: _ => joinURLs
                              end)) w []) as Hm
        by (destruct joinURLs; [rewrite run_ask|]; done)
  end.
  rewrite (bind_pure _ _ _ _ _ Hm). clear Hm.
  generalize (match joinURLs with
              | [] => [broker_URL H w]
              | _ :: _ => joinURLs
              end).
  intros urls. unfold after. cbn [fold_left].
  do 3 run_step H.
  { run_read. split; [by exists []|]. intros _. split; [exit_now|done]. }
  run_step H.
  match goal with
  | |- context [client_URLs H ?w'] => destruct (client_URLs H w') eqn:Hurls
  end.
  { run_read. split; [by exists []|]. intros _. split; [exit_now|done]. }
  split; [|done].
  do 2 run_step H.
  { run_read. eexists. split; [reflexivity|]. by repeat constructor. }
  destruct initServer.
  2:{ run_read. eexists. split; [reflexivity|]. by repeat constructor. }
  destruct joinURLs as [|u0 us].
  - destruct initBroker.
    2:{ run_read. eexists. split; [reflexivity|]. by repeat constructor. }
    do 2 run_step H; run_read.
    all: eexists; (split; [reflexivity|]); by repeat constructor.
  - match goal with
    | |- context [joinServer H ?du ?l ?w'] =>
        destruct (joinServer_run H du l w') as (tried & rest & _ & Hc & _);
        pose proof (Forall_fmap_calls (ServerJoin du)
                      (λ c, is_ClientSetURLs c = false) _ _ Hc (λ _, eq_refl))
          as Hall;
        destruct (joinServer H du l w') as [o wf jevs]
    end.
    run_read. cbn [events] in Hall. unfold calls in *.
    eexists. split; [cbn [fmap list_fmap fst]; reflexivity|].
    by repeat constructor.
Qed.

(** C8. The join flag overrides the configuration: with a non-empty flag the
    URLs are parsed from the flag and [Run] does not depend on what
    [config.JoinURLs()] is; with an empty flag they are parsed from
    [config.JoinURLs()], and [Run] behaves as if that string had been the
    flag. *)
Theorem join_flag_overrides_config (H : Host) (G : Globals) (api : ConfigAPI)
    (config : Config) (join version : string) (w : World H) :
  (join ≠ "" →
   runJoinURLs H api config join w = parseURLs H join w ∧
   ∀ f, Run H G (with_JoinURLs f api) config join version w =
        Run H G api config join version w) ∧
  (join = "" →
   runJoinURLs H api config join w = parseURLs H (JoinURLs api config) w ∧
   Run H G api config join version w =
   Run H G api config (JoinURLs api config) version w).
Proof.
  split.
  - intros Hj. destruct join as [|a j]; [done|]. split; reflexivity.
  - intros ->. split; [reflexivity|].
    unfold Run, runJoinURLs. cbn [String.eqb].
    by destruct (String.eqb (JoinURLs api config) "").
Qed.

(** C9. [parseConfig] makes no call.  With an empty path its result does not
    depend on the hostname argument and is the default configuration as
    [NewConfig] made it; with a path, the parsed configuration is returned
    with [Hostname] replaced when the hostname argument is non-empty and
    untouched when it is empty. *)
Theorem hostname_override_needs_config_file (H : Host)
    (path hostname : string) (w : World H) :
  events (parseConfig H path hostname w) = [] ∧
  final (parseConfig H path hostname w) = w ∧
  (path = "" →
   (∀ hostname', parseConfig H path hostname' w = parseConfig H path hostname w) ∧
   (∀ c, NewConfig H w = inl c →
         result (parseConfig H path hostname w) = Ret (inl c))) ∧
  (path ≠ "" →
   ∀ c, ParseConfigFile H path w = inl c →
        (hostname ≠ "" →
         result (parseConfig H path hostname w) = Ret (inl (set_Hostname hostname c))) ∧
        (hostname = "" →
         result (parseConfig H path hostname w) = Ret (inl c))).
Proof.
  unfold parseConfig.
  destruct path as [|a p]; cbn [String.eqb]; rewrite run_ask.
  - destruct (NewConfig H w) as [c|err]; split_and!; try done.
    intros _. split; [done|]. intros c' [= ->]. reflexivity.
  - destruct (ParseConfigFile H (String a p) w) as [c|err]; split_and!; try done.
    intros _ c' [= ->]. split.
    + intros Hh. destruct hostname; [done|reflexivity].
    + intros ->. reflexivity.
Qed.

Section DataDirectory.
Context (H : Host) (G : Globals) (api : ConfigAPI) (p : string).

(** Only [fileExists] looks at the file system: everything [runNode] does
    is the same on a host that differs in what [os.Stat] reports. *)
Lemma openBroker_with_missing path u initializing joinURLs raftTracing :
  openBroker (with_missing H p) path u initializing joinURLs raftTracing =
  openBroker H path u initializing joinURLs raftTracing.
Proof. reflexivity. Qed.

Lemma openServer_with_missing config initServer initBroker joinURLs :
  openServer (with_missing H p) G api config initServer initBroker joinURLs =
  openServer H G api config initServer initBroker joinURLs.
Proof. reflexivity. Qed.

Lemma runServices_with_missing config :
  runServices (with_missing H p) G api config = runServices H G api config.
Proof. reflexivity. Qed.

Lemma runNode_with_missing config initBroker initServer joinURLs :
  runNode (with_missing H p) G api config initBroker initServer joinURLs =
  runNode H G api config initBroker initServer joinURLs.
Proof.
  unfold runNode.
  rewrite openBroker_with_missing, openServer_with_missing,
    runServices_with_missing.
  reflexivity.
Qed.

End DataDirectory.

(** C10. When the broker directory is missing both flags are true
    ([initServer = initServer || initBroker]), and [Run] does exactly what
    it does when the data directory is missing too: the data node is
    treated as uninitialized whether or not its directory exists. *)
Theorem missing_broker_forces_server_init (H : Host) (G : Globals)
    (api : ConfigAPI) (config : Config) (join version : string) (w : World H) :
  os_Stat_IsNotExist H (BrokerDir api config) w = true →
  result (initFlags H api config w) = Ret (true, true) ∧
  Run (with_missing H (DataDir api config)) G api config join version w =
  Run H G api config join version w.
Proof.
  intros Hm. split.
  - rewrite initFlags_run, Hm. by rewrite orb_true_r.
  - rewrite !Run_run.
    change (runJoinURLs (with_missing H (DataDir api config)) api config join w)
      with (runJoinURLs H api config join w).
    cbn [World os_Stat_IsNotExist with_missing].
    destruct (result (runJoinURLs H api config join w)); [|reflexivity].
    rewrite Hm.
    destruct (String.eqb _ _); rewrite !orb_true_r; by rewrite runNode_with_missing.
Qed.

(** ** Runs on concrete hosts *)

(** C1, the claim as stated fails: the broker directory exists, the data
    directory does not, and a join flag is given.  [Run] returns, having
    seeded the messaging client with the join URLs and joined the server
    through the first of them. *)
Lemma existing_broker_still_joins_server :
  let r := Run dataDirLost sampleGlobals (sampleAPI "") sampleConfig
               "http://a:8086,http://b:8086" "0.9.0" [] in
  os_Stat_IsNotExist dataDirLost (BrokerDir (sampleAPI "") sampleConfig) [] = false ∧
  result r = Ret tt ∧
  List.filter is_ServerJoin (calls (events r)) =
    [ServerJoin "http://localhost:8086" "http://a:8086"] ∧
  List.filter is_ClientSetURLs (calls (events r)) =
    [ClientSetURLs ["http://a:8086"; "http://b:8086"]].
Proof. vm_compute. by split_and!. Qed.

Lemma existing_broker_is_not_bootstrapped_witness :
  os_Stat_IsNotExist dataDirLost (BrokerDir (sampleAPI "") sampleConfig) [] = false ∧
  Forall (λ c, bootstraps c = false)
         (calls (events (Run dataDirLost sampleGlobals (sampleAPI "") sampleConfig
                             "http://a:8086,http://b:8086" "0.9.0" []))).
Proof.
  split; [reflexivity|].
  apply (existing_broker_is_not_bootstrapped dataDirLost sampleGlobals
           (sampleAPI "") sampleConfig "http://a:8086,http://b:8086" "0.9.0" []).
  reflexivity.
Defined.

(** C3, the claim as stated fails: a first start with no join URL on which
    the broker cannot be opened.  The process ends before any [Initialize]. *)
Lemma fresh_node_exits_before_initialize :
  let r := Run brokerOpenFails sampleGlobals (sampleAPI "") sampleConfig
               "" "0.9.0" [] in
  os_Stat_IsNotExist brokerOpenFails (BrokerDir (sampleAPI "") sampleConfig) [] = true ∧
  result (runJoinURLs brokerOpenFails (sampleAPI "") sampleConfig "" []) = Ret [] ∧
  result r = Fatal "failed to open broker at %s : %s" ∧
  List.filter is_Initialize (calls (events r)) = [].
Proof. vm_compute. by split_and!. Qed.

(** C2, the claim as stated fails: two join URLs, both refuse.  [joinLog]
    and [joinServer] try both and end the process; neither returns. *)
Lemma exhausted_join_ends_process :
  let us := ["http://a:8086"; "http://b:8086"] in
  let rl := joinLog nobodyAnswers us [] in
  let rs := joinServer nobodyAnswers "http://localhost:8086" us [] in
  events rl = [(LogJoin "http://a:8086", Some "refused");
               (LogJoin "http://b:8086", Some "refused")] ∧
  result rl = Fatal "join: failed to connect raft log to any specified server" ∧
  ¬ returned rl ∧
  events rs = [(ServerJoin "http://localhost:8086" "http://a:8086", Some "refused");
               (ServerJoin "http://localhost:8086" "http://b:8086", Some "refused")] ∧
  result rs = Fatal "join: failed to connect data node to any specified server" ∧
  ¬ returned rs.
Proof.
  cbv zeta. split_and!; try reflexivity.
  - intros [a Ha]. vm_compute in Ha. discriminate.
  - intros [a Ha]. vm_compute in Ha. discriminate.
Qed.

(** C6, the claim as stated fails: [b.Open] fails in [openBroker], [s.Open]
    fails in [openServer].  Neither function returns an error, or anything:
    the process has ended. *)
Lemma failed_open_ends_process :
  let rb := openBroker brokerOpenFails "/var/influxdb/broker"
              "http://localhost:8086" true [] false [] in
  let rs := openServer serverOpenFails sampleGlobals (sampleAPI "")
              sampleConfig true true [] [] in
  result rb = Fatal "failed to open broker at %s : %s" ∧
  ¬ returned rb ∧
  result rs = Fatal "failed to open data server: %v" ∧
  ¬ returned rs.
Proof.
  cbv zeta. split_and!; try reflexivity.
  - intros [a Ha]. vm_compute in Ha. discriminate.
  - intros [a Ha]. vm_compute in Ha. discriminate.
Qed.

Lemma missing_broker_forces_server_init_witness :
  os_Stat_IsNotExist brokerDirLost (BrokerDir (sampleAPI "") sampleConfig) [] = true ∧
  result (initFlags brokerDirLost (sampleAPI "") sampleConfig []) = Ret (true, true) ∧
  Run (with_missing brokerDirLost (DataDir (sampleAPI "") sampleConfig))
      sampleGlobals (sampleAPI "") sampleConfig "" "0.9.0" [] =
  Run brokerDirLost sampleGlobals (sampleAPI "") sampleConfig "" "0.9.0" [].
Proof.
  split; [reflexivity|].
  apply (missing_broker_forces_server_init brokerDirLost sampleGlobals
           (sampleAPI "") sampleConfig "" "0.9.0" []).
  reflexivity.
Defined.

End InfluxdProofs.

(** * Properties of the election protocol *)

Module RaftProofs.
Import Raft.
Local Open Scope list_scope.
Local Open Scope nat_scope.

Lemma quorums_meet (members Q1 Q2 : gset NodeID) :
  Q1 ⊆ members → Q2 ⊆ members →
  quorum members Q1 = true → quorum members Q2 = true →
  ∃ v, v ∈ Q1 ∧ v ∈ Q2.
Proof.
  unfold quorum. intros H1 H2 S1%Nat.ltb_lt S2%Nat.ltb_lt.
  destruct (decide (Q1 ∩ Q2 = ∅)) as [Hd|Hn].
  - apply disjoint_intersection_L in Hd.
    pose proof (size_union Q1 Q2 Hd) as Hu.
    assert (Q1 ∪ Q2 ⊆ members) as Hsub by (by apply union_least).
    apply subseteq_size in Hsub. lia.
  - apply set_choose_L in Hn as [v Hv].
    apply elem_of_intersection in Hv. by exists v.
Qed.

Lemma inv_safe c : inv c → election_safe c.
Proof.
  intros I. assert (∀ t a b, (t, a) ∈ elected c → (t, b) ∈ elected c → a = b) as Hu.
  { intros t a b Ha Hb.
    destruct (inv_elected c I t a Ha) as (Qa & Sa & Ma & Va).
    destruct (inv_elected c I t b Hb) as (Qb & Sb & Mb & Vb).
    destruct (quorums_meet _ _ _ Sa Sb Ma Mb) as (v & Hva & Hvb).
    eapply (inv_once c I); eauto. }
  split; [exact Hu|].
  intros a b na nb Ha Hb La Lb Ht.
  apply (Hu (currentTerm na)).
  - by apply (inv_leader c I).
  - rewrite Ht. by apply (inv_leader c I).
Qed.

Lemma inv_init members : inv (init members).
Proof.
  split; unfold granted; simpl.
  - intros n nd [? _]%lookup_gset_to_gmap_Some. done.
  - intros t v a b H. by apply elem_of_nil in H.
  - intros t v a H. by apply elem_of_nil in H.
  - intros a nd v [_ <-]%lookup_gset_to_gmap_Some Hv.
    by apply elem_of_empty in Hv.
  - intros t a H. by apply elem_of_nil in H.
  - intros a nd [_ <-]%lookup_gset_to_gmap_Some. done.
Qed.

Lemma inv_put c n nd nd' sent won :
  inv c → nodes c !! n = Some nd →
  currentTerm nd ≤ currentTerm nd' →
  (currentTerm nd' = currentTerm nd →
   ∀ a, votedFor nd = Some a → votedFor nd' = Some a) →
  (∀ t v a, VoteMsg t v a true ∈ sent →
     v = n ∧ t = currentTerm nd' ∧ votedFor nd' = Some a ∧
     (currentTerm nd' = currentTerm nd →
      votedFor nd = None ∨ votedFor nd = Some a)) →
  (∀ v, v ∈ votes nd' →
     VoteMsg (currentTerm nd') v n true ∈ network c ++ sent) →
  (∀ t a, (t, a) ∈ won →
     a = n ∧ t = currentTerm nd' ∧ quorum (peers c) (votes nd') = true) →
  (role nd' = Leader → (currentTerm nd', n) ∈ elected c ++ won) →
  inv (put n nd' sent won c).
Proof.
  intros I Hn Hmono Hkeep Hsent Htally Hwon Hlead.
  assert (∀ t v a, granted (put n nd' sent won c) t v a →
    ∃ nd0, nodes (put n nd' sent won c) !! v = Some nd0 ∧ t ≤ currentTerm nd0 ∧
           (t = currentTerm nd0 → votedFor nd0 = Some a)) as Hvoter.
  { unfold granted; simpl. intros t v a [Hold|Hnew]%elem_of_app.
    - destruct (inv_voter c I t v a Hold) as (nd0 & Hv & Hle & Hvf).
      destruct (decide (v = n)) as [->|Hne].
      + rewrite Hn in Hv. injection Hv as <-.
        exists nd'. rewrite lookup_insert_eq. split; [done|]. split; [lia|].
        intros ->. assert (currentTerm nd' = currentTerm nd) as E by lia.
        apply (Hkeep E), Hvf. lia.
      + exists nd0. by rewrite lookup_insert_ne.
    - destruct (Hsent t v a Hnew) as (-> & -> & Hvf & _).
      exists nd'. by rewrite lookup_insert_eq. }
  split.
  - simpl. intros n0 nd0. destruct (decide (n0 = n)) as [->|Hne].
    + intros _. by apply (inv_dom c I n nd).
    + rewrite lookup_insert_ne by done. apply (inv_dom c I).
  - unfold granted; simpl. intros t v a b [Ha|Ha]%elem_of_app [Hb|Hb]%elem_of_app.
    + by apply (inv_once c I t v).
    + destruct (Hsent t v b Hb) as (-> & -> & Hvf & Hor).
      destruct (inv_voter c I _ _ _ Ha) as (nd0 & Hv & Hle & Hvf0).
      rewrite Hn in Hv. injection Hv as <-.
      assert (currentTerm nd' = currentTerm nd) as E by lia.
      specialize (Hvf0 E). destruct (Hor E) as [Hnone|Hsome]; congruence.
    + destruct (Hsent t v a Ha) as (-> & -> & Hvf & Hor).
      destruct (inv_voter c I _ _ _ Hb) as (nd0 & Hv & Hle & Hvf0).
      rewrite Hn in Hv. injection Hv as <-.
      assert (currentTerm nd' = currentTerm nd) as E by lia.
      specialize (Hvf0 E). destruct (Hor E) as [Hnone|Hsome]; congruence.
    + destruct (Hsent t v a Ha) as (_ & _ & Hvfa & _).
      destruct (Hsent t v b Hb) as (_ & _ & Hvfb & _). congruence.
  - exact Hvoter.
  - unfold granted; simpl. intros a nd0 v. destruct (decide (a = n)) as [->|Hne].
    + rewrite lookup_insert_eq. intros [= <-]. apply Htally.
    + rewrite lookup_insert_ne by done. intros Ha Hv.
      apply elem_of_app. left. by apply (inv_tally c I a nd0).
  - simpl. intros t a [Hold|Hnew]%elem_of_app.
    + destruct (inv_elected c I t a Hold) as (Q & HQ & Hm & Hg).
      exists Q. split; [done|]. split; [done|].
      intros v Hv. unfold granted; simpl. apply elem_of_app. left. by apply Hg.
    + destruct (Hwon t a Hnew) as (-> & -> & Hq).
      exists (votes nd'). split; [|split; [done|]].
      * intros v Hv. apply Htally in Hv.
        destruct (Hvoter (currentTerm nd') v n Hv) as (nd0 & Hl & _).
        simpl in Hl. destruct (decide (v = n)) as [->|Hne].
        -- by apply (inv_dom c I n nd).
        -- rewrite lookup_insert_ne in Hl by done. by apply (inv_dom c I v nd0).
      * intros v Hv. by apply Htally.
  - simpl. intros a nd0. destruct (decide (a = n)) as [->|Hne].
    + rewrite lookup_insert_eq. intros [= <-]. apply Hlead.
    + rewrite lookup_insert_ne by done. intros Ha Hr.
      apply elem_of_app. left. by apply (inv_leader c I a nd0).
Qed.

(** An update that changes neither term nor vote, adds no voter and no leader *)
Lemma inv_put_quiet c n nd nd' sent :
  inv c → nodes c !! n = Some nd →
  currentTerm nd' = currentTerm nd → votedFor nd' = votedFor nd →
  votes nd' ⊆ votes nd → (role nd' = Leader → role nd = Leader) →
  (∀ t v a, VoteMsg t v a true ∉ sent) →
  inv (put n nd' sent [] c).
Proof.
  intros I Hn Ht Hv Hvs Hr Hs.
  apply (inv_put c n nd); try done.
  - lia.
  - intros _ a. by rewrite Hv.
  - intros t v a Hin. by destruct (Hs t v a).
  - intros v Hin. apply elem_of_app. left. rewrite Ht.
    apply (inv_tally c I n nd v Hn). by apply Hvs.
  - intros t a Hin. by apply elem_of_nil in Hin.
  - intros Hl. rewrite app_nil_r, Ht. apply (inv_leader c I n nd Hn). by apply Hr.
Qed.

(** A node that moves to a higher term as a Follower with an empty tally,
    and may grant one vote in that term *)
Lemma inv_put_higher c n nd nd' sent :
  inv c → nodes c !! n = Some nd →
  currentTerm nd < currentTerm nd' → votes nd' = ∅ → role nd' ≠ Leader →
  (∀ t v a, VoteMsg t v a true ∈ sent →
     v = n ∧ t = currentTerm nd' ∧ votedFor nd' = Some a) →
  inv (put n nd' sent [] c).
Proof.
  intros I Hn Ht Hvs Hr Hs.
  apply (inv_put c n nd); try done.
  - lia.
  - lia.
  - intros t v a Hin. destruct (Hs t v a Hin) as (? & ? & ?).
    split_and!; try done. lia.
  - intros v. rewrite Hvs. intros Hin. by apply elem_of_empty in Hin.
  - intros t a Hin. by apply elem_of_nil in Hin.
Qed.

Lemma not_in_singleton_vote m :
  (∀ t v a, m ≠ VoteMsg t v a true) → ∀ t v a, VoteMsg t v a true ∉ [m].
Proof. intros Hm t v a Hin. apply list_elem_of_singleton in Hin. by destruct (Hm t v a). Qed.

Lemma inv_step e c c' : inv c → step e c = Some c' → inv c'.
Proof.
  intros I. destruct e as [n|n i|n cmd|n prev|n]; simpl.
  - (* Timeout *)
    destruct (nodes c !! n) as [nd|] eqn:Hn; simpl; [|done].
    destruct (is_Leader (role nd)) eqn:Hl; [done|]. intros [= <-].
    apply (inv_put_higher c n nd); simpl; try done; [lia|].
    intros t v a Hin. apply list_elem_of_singleton in Hin. done.
  - (* Deliver *)
    destruct (nodes c !! n) as [nd|] eqn:Hn; simpl; [|done].
    destruct (network c !! i) as [m|] eqn:Hm; simpl; [|done]. intros [= <-].
    apply list_elem_of_lookup_2 in Hm.
    destruct m as [t cand lli llt|t v cand g|t l prev prevTerm entries lc]; simpl.
    + (* requestVote *)
      unfold requestVote, observe.
      destruct (t <? currentTerm nd) eqn:Hstale.
      { apply (inv_put_quiet c n nd); try done.
        by apply not_in_singleton_vote. }
      apply Nat.ltb_ge in Hstale.
      destruct (currentTerm nd <? t) eqn:Hhigh.
      * apply Nat.ltb_lt in Hhigh. simpl.
        destruct (upToDate lli llt (log nd)).
        -- apply (inv_put_higher c n nd); simpl; try done.
           intros t' v a Hin. apply list_elem_of_singleton in Hin.
           by injection Hin as -> -> ->.
        -- apply (inv_put_higher c n nd); simpl; try done.
           intros t' v a Hin. apply list_elem_of_singleton in Hin. done.
      * apply Nat.ltb_ge in Hhigh. assert (t = currentTerm nd) as -> by lia.
        destruct (may_vote_for cand nd && upToDate lli llt (log nd)) eqn:Hok.
        -- apply andb_true_iff in Hok as [Hmay _]. unfold may_vote_for in Hmay.
           apply (inv_put c n nd); simpl; try done.
           ++ intros _ a Ha. rewrite Ha in Hmay. apply Nat.eqb_eq in Hmay. by subst.
           ++ intros t' v a Hin. apply list_elem_of_singleton in Hin.
              injection Hin as -> -> ->. split_and!; try done.
              intros _. destruct (votedFor nd) as [x|]; [|by left].
              apply Nat.eqb_eq in Hmay. subst. by right.
           ++ intros v Hv. apply elem_of_app. left.
              by apply (inv_tally c I n nd).
           ++ intros t' a Hin. by apply elem_of_nil in Hin.
           ++ intros Hl. rewrite app_nil_r. by apply (inv_leader c I n nd).
        -- apply (inv_put_quiet c n nd); try done.
           by apply not_in_singleton_vote.
    + (* a vote arrives *)
      unfold receiveVote.
      destruct (currentTerm nd <? t) eqn:Hhigh.
      { apply Nat.ltb_lt in Hhigh. simpl.
        rewrite andb_false_r.
        apply (inv_put_higher c n nd); simpl; try done.
        intros ? ? ? Hin. by apply elem_of_nil in Hin. }
      destruct ((n =? cand) && is_Candidate (role nd) && (t =? currentTerm nd) && g)
        eqn:Hcount.
      * apply andb_true_iff in Hcount as [Hcount ->].
        apply andb_true_iff in Hcount as [Hcount ->%Nat.eqb_eq].
        apply andb_true_iff in Hcount as [->%Nat.eqb_eq Hcand].
        destruct (role nd) eqn:Hrole; try done. simpl.
        apply (inv_put c cand nd); simpl; try done.
        -- intros ? ? ? Hin. by apply elem_of_nil in Hin.
        -- intros v' [Hv'|Hv']%elem_of_union; rewrite app_nil_r.
           ++ apply (inv_tally c I cand nd v' Hn Hv').
           ++ apply elem_of_singleton in Hv'. by subst.
        -- destruct (quorum (peers c) (votes nd ∪ {[v]})) eqn:Hq; simpl;
             intros t' a Hin; [|by apply elem_of_nil in Hin].
           apply list_elem_of_singleton in Hin. by injection Hin as -> ->.
        -- destruct (quorum (peers c) (votes nd ∪ {[v]})) eqn:Hq; [|done].
           intros _. simpl. apply elem_of_app. right. left.
      * destruct (is_Leader (role nd)) eqn:Hl; simpl.
        -- apply (inv_put_quiet c n nd); try done.
           intros ? ? ? Hin. by apply elem_of_nil in Hin.
        -- apply (inv_put_quiet c n nd); try done.
           intros ? ? ? Hin. by apply elem_of_nil in Hin.
    + (* appendEntries *)
      unfold appendEntries, observe.
      destruct (t <? currentTerm nd) eqn:Hstale.
      { apply (inv_put_quiet c n nd); try done.
        intros ? ? ? Hin. by apply elem_of_nil in Hin. }
      destruct (currentTerm nd <? t) eqn:Hhigh.
      * apply Nat.ltb_lt in Hhigh. simpl.
        destruct (_ && _); apply (inv_put_higher c n nd); simpl; try done.
        all: intros ? ? ? Hin; by apply elem_of_nil in Hin.
      * destruct (_ && _); apply (inv_put_quiet c n nd); simpl; try done.
        all: intros ? ? ? Hin; by apply elem_of_nil in Hin.
  - (* Propose *)
    destruct (nodes c !! n) as [nd|] eqn:Hn; simpl; [|done].
    unfold propose. destruct (is_Leader (role nd)); simpl; [|done].
    intros [= <-]. apply (inv_put_quiet c n nd); simpl; try done.
    intros ? ? ? Hin. by apply elem_of_nil in Hin.
  - (* Replicate *)
    destruct (nodes c !! n) as [nd|] eqn:Hn; simpl; [|done].
    unfold replicate. destruct (_ && _); simpl; [|done].
    intros [= <-]. apply (inv_put_quiet c n nd); simpl; try done.
    by apply not_in_singleton_vote.
  - (* Crash *)
    destruct (nodes c !! n) as [nd|] eqn:Hn; simpl; [|done].
    intros [= <-]. apply (inv_put_quiet c n nd); simpl; try done.
    intros ? ? ? Hin. by apply elem_of_nil in Hin.
Qed.

Lemma inv_run evs c c' : inv c → run evs c = Some c' → inv c'.
Proof.
  revert c. induction evs as [|e evs IH]; intros c I; simpl.
  - by intros [= <-].
  - destruct (step e c) as [c1|] eqn:Hs; simpl; [|done].
    apply IH. by apply (inv_step e c).
Qed.

(** C5. Election safety: whatever sequence of election timeouts, message
    deliveries (in any order, repeated or never made), proposals,
    replications and node failures a cluster goes through, no term has two
    election winners, and two nodes that are Leader in the same term are the
    same node. *)
Theorem election_safety (members : gset NodeID) (evs : list Event) (c : Cluster) :
  run evs (init members) = Some c → election_safe c.
Proof.
  intros Hr.
  apply inv_safe, (inv_run evs (init members)); [apply inv_init|done].
Qed.

Lemma election_safety_witness :
  ∃ c, run sampleHistory (init {[0; 1; 2]}) = Some c ∧
       (1, 0) ∈ elected c ∧ election_safe c.
Proof.
  eexists. split; [vm_compute; reflexivity|]. split; [left|].
  apply (election_safety {[0; 1; 2]} sampleHistory). vm_compute. reflexivity.
Defined.

End RaftProofs.

(** * Further properties of the startup code *)

Module StartupProperties.
Import Influxd InfluxdProofs.
Local Open Scope list_scope.

Section Parsing.
Context (H : Host).

Lemma split_comma_length s : length (split_comma s) = S (commas s).
Proof.
  induction s as [|c s IH]; simpl; [done|].
  destruct (Ascii.eqb c ","); simpl; [by rewrite IH|].
  destruct (split_comma s); simpl in *; lia.
Qed.

Lemma parseURLs_loop_result pieces a w :
  result (parseURLs_loop H pieces a w) =
  match mapM (url_Parse H) pieces with
  | Some us => Ret (a ++ us)
  | None => Fatal "cannot parse urls: %s"
  end.
Proof.
  revert a. induction pieces as [|p pieces IH]; intros a; simpl.
  - by rewrite app_nil_r.
  - destruct (url_Parse H p) as [u|]; simpl; [|done].
    rewrite IH. destruct (mapM (url_Parse H) pieces); simpl; [|done].
    by rewrite <- app_assoc.
Qed.

(** X1. [parseURLs] makes no call.  The empty string gives nil.  Any other
    string is split at its commas and every piece is parsed, in order: the
    result is the list of the parsed pieces, one URL more than there are
    commas (an empty piece, as after a trailing comma, is parsed like any
    other), and the process ends if one piece does not parse. *)
Theorem parseURLs_parses_every_piece (s : string) (w : World H) :
  events (parseURLs H s w) = [] ∧ final (parseURLs H s w) = w ∧
  (s = "" → result (parseURLs H s w) = Ret []) ∧
  (s ≠ "" →
   result (parseURLs H s w) =
     match mapM (url_Parse H) (split_comma s) with
     | Some us => Ret us
     | None => Fatal "cannot parse urls: %s"
     end) ∧
  (∀ us, s ≠ "" → result (parseURLs H s w) = Ret us →
         length us = S (commas s)).
Proof.
  destruct (parseURLs_quiet H s w) as [He Hf].
  split_and!; try done.
  - by intros ->.
  - intros Hs. unfold parseURLs. destruct s; [done|]. cbn [String.eqb].
    by rewrite parseURLs_loop_result.
  - intros us Hs. unfold parseURLs. destruct s; [done|]. cbn [String.eqb].
    intros Hr%parseURLs_loop_length. rewrite Hr, split_comma_length. done.
Qed.
End Parsing.

(** X2. A join URL that does not parse ends [Run] before it has called
    anything: nothing is opened, whether or not the node has state on
    disk. *)
Theorem unparsable_join_url_stops_startup (H : Host) (G : Globals)
    (api : ConfigAPI) (config : Config) (join version : string) (w : World H) :
  exited (runJoinURLs H api config join w) →
  exited (Run H G api config join version w) ∧
  events (Run H G api config join version w) = [] ∧
  final (Run H G api config join version w) = w.
Proof.
  intros [msg Hm]. rewrite Run_run, Hm. split; [by eexists|done].
Qed.

Lemma unparsable_join_url_stops_startup_witness :
  exited (runJoinURLs dataDirLost (sampleAPI "") sampleConfig "http://a:8086,%" []) ∧
  exited (Run dataDirLost sampleGlobals (sampleAPI "") sampleConfig
              "http://a:8086,%" "0.9.0" []) ∧
  events (Run dataDirLost sampleGlobals (sampleAPI "") sampleConfig
              "http://a:8086,%" "0.9.0" []) = [] ∧
  final (Run dataDirLost sampleGlobals (sampleAPI "") sampleConfig
              "http://a:8086,%" "0.9.0" []) = [].
Proof.
  assert (exited (runJoinURLs dataDirLost (sampleAPI "") sampleConfig
                    "http://a:8086,%" [])) as Hx by (by eexists).
  split; [exact Hx|].
  exact (unparsable_join_url_stops_startup dataDirLost sampleGlobals
           (sampleAPI "") sampleConfig "http://a:8086,%" "0.9.0" [] Hx).
Defined.

Section Strict.
Context (H : Host) (G : Globals) (api : ConfigAPI).

Lemma strict_ret {A} (a : A) : strict (@ret H A a).
Proof. intros w c e Hin. by apply elem_of_nil in Hin. Qed.

Lemma strict_fatal {A} msg : strict (@fatal H A msg).
Proof. intros w c e Hin. by apply elem_of_nil in Hin. Qed.

Lemma strict_ask {A} (q : World H → A) : strict (ask q).
Proof. intros w c e Hin. by apply elem_of_nil in Hin. Qed.

Lemma strict_tell c : strict (tell H c).
Proof. intros w c' e Hin. apply list_elem_of_singleton in Hin. done. Qed.

Lemma strict_bind {A B} (m : M H A) (f : A → M H B) :
  strict m → (∀ a, strict (f a)) → strict (bind m f).
Proof.
  intros Hm Hf w c e. rewrite events_bind. unfold exited. rewrite result_bind.
  intros [Hin|Hin]%elem_of_app Ht.
  - destruct (Hm w c e Hin Ht) as [msg ->]. by eexists.
  - destruct (result (m w)) as [a|msg]; [|by eexists].
    apply (Hf a _ c e Hin Ht).
Qed.

(** A call whose error is looked at: either tolerated, or followed by exit. *)
Lemma strict_call {B} c (f : option error → M H B) :
  (tolerated c = false → ∀ e w, exited (f (Some e) w)) →
  (∀ a, strict (f a)) → strict (bind (call H c) f).
Proof.
  intros Hx Hf w c' e'. rewrite run_call.
  rewrite events_prepend. unfold exited. rewrite result_prepend.
  destruct (exec H c w) as [w1 r]. cbn [fst snd].
  intros [Hin|Hin]%elem_of_cons Ht.
  - injection Hin as -> <-. apply (Hx Ht).
  - apply (Hf r w1 c' e' Hin Ht).
Qed.

Lemma strict_joinLog us : strict (joinLog H us).
Proof.
  induction us as [|u us IH]; [apply strict_fatal|].
  rewrite joinLog_cons. apply strict_call; [done|].
  intros [e|]; [done|apply strict_ret].
Qed.

Lemma strict_joinServer du us : strict (joinServer H du us).
Proof.
  induction us as [|u us IH]; [apply strict_fatal|].
  rewrite joinServer_cons. apply strict_call; [done|].
  intros [e|]; [done|apply strict_ret].
Qed.

End Strict.

Ltac strict_step :=
  lazymatch goal with
  | |- strict (ret _) => apply strict_ret
  | |- strict (fatal _) => apply strict_fatal
  | |- strict (ask _) => apply strict_ask
  | |- strict (tell _ _) => apply strict_tell
  | |- strict (joinLog _ _) => apply strict_joinLog
  | |- strict (joinServer _ _ _) => apply strict_joinServer
  | |- strict (bind (call _ _) _) =>
      apply strict_call; [intros; try done; by eexists|intros ?]
  | |- strict (bind _ _) => apply strict_bind; [|intros ?]
  | |- strict (match ?x with _ => _ end) =>
      first [is_var x; destruct x | destruct x eqn:?]
  end.

Section StrictRun.
Context (H : Host) (G : Globals) (api : ConfigAPI).

Lemma strict_runGraphites config cs : strict (runGraphites H api config cs).
Proof.
  induction cs as [|c cs IH]; simpl; [apply strict_ret|].
  destruct (Graphite_Enabled c); simpl; [|done].
  repeat strict_step. done.
Qed.

Lemma strict_openBroker path u i us t : strict (openBroker H path u i us t).
Proof. unfold openBroker. repeat strict_step. Qed.

Lemma strict_openServer config i1 i2 us :
  strict (openServer H G api config i1 i2 us).
Proof. unfold openServer. repeat strict_step. Qed.

Lemma strict_runServices config : strict (runServices H G api config).
Proof.
  unfold runServices.
  repeat lazymatch goal with
         | |- strict (runGraphites _ _ _ _) => apply strict_runGraphites
         | |- _ => strict_step
         end.
Qed.

Lemma strict_runNode config i1 i2 us : strict (runNode H G api config i1 i2 us).
Proof.
  unfold runNode.
  repeat lazymatch goal with
         | |- strict (openBroker _ _ _ _ _ _) => apply strict_openBroker
         | |- strict (openServer _ _ _ _ _ _ _) => apply strict_openServer
         | |- strict (runServices _ _ _ _) => apply strict_runServices
         | |- _ => strict_step
         end.
Qed.

End StrictRun.

(** X4. [Run] returns only if no call failed, except the calls whose failure
    is only logged: a join attempt (another URL is tried), the collectd
    listener and the UDP listener. *)
Theorem Run_returns_only_without_failure (H : Host) (G : Globals)
    (api : ConfigAPI) (config : Config) (join version : string) (w : World H) :
  returned (Run H G api config join version w) →
  ∀ c e, (c, Some e) ∈ events (Run H G api config join version w) →
         tolerated c = true.
Proof.
  intros [a Ha] c e Hin.
  destruct (tolerated c) eqn:Ht; [done|].
  rewrite Run_run in Ha, Hin.
  destruct (result (runJoinURLs H api config join w)) as [us|msg].
  - destruct (strict_runNode H G api config _ _ us w c e Hin Ht) as [msg Hm].
    congruence.
  - by apply elem_of_nil in Hin.
Qed.

Ltac enabled_solve :=
  cbn [enabled_by];
  repeat match goal with
         | E : negb _ = true |- _ => apply negb_true_iff in E
         | E : (_ =? _)%Z = false |- _ => apply Z.eqb_neq in E
         end;
  by eauto.

Ltac enabled_step :=
  lazymatch goal with
  | |- emits _ (ret _) => apply emits_ret
  | |- emits _ (fatal _) => apply emits_fatal
  | |- emits _ (ask _) => apply emits_ask
  | |- emits _ (tell _ _) => apply emits_tell; enabled_solve
  | |- emits _ (call _ _) => apply emits_call; enabled_solve
  | |- emits _ (bind _ _) => apply emits_bind; [|intros ?]
  | |- emits _ (match ?x with _ => _ end) =>
      first [is_var x; destruct x | destruct x eqn:?]
  end.

Section Enabled.
Context (H : Host) (G : Globals) (api : ConfigAPI).

Lemma enabled_runGraphites config cs :
  (∀ g, g ∈ cs → g ∈ Graphites config) →
  emits (enabled_by api config) (runGraphites H api config cs).
Proof.
  induction cs as [|g cs IH]; intros Hsub; simpl; [apply emits_ret|].
  assert (g ∈ Graphites config) as Hg by (apply Hsub; left).
  assert (∀ g', g' ∈ cs → g' ∈ Graphites config) as Hcs
    by (intros g' Hg'; apply Hsub; by right).
  destruct (Graphite_Enabled g) eqn:He; simpl; [|by apply IH].
  repeat lazymatch goal with
         | |- emits _ (runGraphites _ _ _ _) => by apply IH
         | |- _ => enabled_step
         end.
Qed.

Lemma enabled_openBroker config path u i us t :
  emits (enabled_by api config) (openBroker H path u i us t).
Proof.
  unfold openBroker.
  repeat lazymatch goal with
         | |- emits _ (joinLog _ _) => by apply emits_joinLog
         | |- _ => enabled_step
         end.
Qed.

Lemma enabled_openServer config i1 i2 us :
  emits (enabled_by api config) (openServer H G api config i1 i2 us).
Proof.
  unfold openServer.
  repeat lazymatch goal with
         | |- emits _ (joinServer _ _ _) => by apply emits_joinServer
         | |- _ => enabled_step
         end.
Qed.

Lemma enabled_runServices config :
  emits (enabled_by api config) (runServices H G api config).
Proof.
  unfold runServices.
  repeat lazymatch goal with
         | |- emits _ (runGraphites _ _ _ _) => by apply enabled_runGraphites
         | |- _ => enabled_step
         end.
Qed.

Lemma enabled_runNode config i1 i2 us :
  emits (enabled_by api config) (runNode H G api config i1 i2 us).
Proof.
  unfold runNode.
  repeat lazymatch goal with
         | |- emits _ (openBroker _ _ _ _ _ _) => apply enabled_openBroker
         | |- emits _ (openServer _ _ _ _ _ _ _) => apply enabled_openServer
         | |- emits _ (runServices _ _ _ _) => apply enabled_runServices
         | |- _ => enabled_step
         end.
Qed.

End Enabled.

(** X5. [Run] starts an optional service only when the configuration
    enables it: the continuous query loop, retention enforcement, the
    snapshot, admin, collectd, UDP, Graphite and OpenTSDB listeners,
    self-monitoring, and the reporting loop (which also needs a non-zero
    cluster id). *)
Theorem services_start_only_when_enabled (H : Host) (G : Globals)
    (api : ConfigAPI) (config : Config) (join version : string) (w : World H) :
  Forall (enabled_by api config)
         (calls (events (Run H G api config join version w))).
Proof.
  rewrite Run_run. destruct (result _); [|constructor].
  apply enabled_runNode.
Qed.

Section Returned.
Context (H : Host) (G : Globals) (api : ConfigAPI).

Lemma returned_bind {A B} (m : M H A) (f : A → M H B) w b :
  result (bind m f w) = Ret b →
  ∃ a, result (m w) = Ret a ∧
       result (f a (final (m w))) = Ret b ∧
       events (bind m f w) = events (m w) ++ events (f a (final (m w))).
Proof.
  rewrite result_bind, events_bind.
  destruct (result (m w)) as [a|msg]; [|done]. intros Hr. by exists a.
Qed.

Lemma joinLog_returned us w :
  result (joinLog H us w) = Ret tt →
  ∃ u, u ∈ us ∧ (LogJoin u, None) ∈ events (joinLog H us w).
Proof.
  destruct (joinLog_run H us w)
    as (tried & rest & Hus & Hc & [(Hf & _)|(_ & evs & u & Hev & _)]);
    [congruence|].
  intros _. exists u. split.
  - assert (LogJoin u ∈ calls (events (joinLog H us w))) as Hin.
    { rewrite Hev. unfold calls. rewrite fmap_app. apply elem_of_app. right. left. }
    rewrite Hc in Hin. apply list_elem_of_fmap in Hin as (y & [= ->] & Hy).
    subst us. apply elem_of_app. by left.
  - rewrite Hev. apply elem_of_app. right. left.
Qed.

Lemma joinServer_returned du us w :
  result (joinServer H du us w) = Ret tt →
  ∃ u, u ∈ us ∧ (ServerJoin du u, None) ∈ events (joinServer H du us w).
Proof.
  destruct (joinServer_run H du us w)
    as (tried & rest & Hus & Hc & [(Hf & _)|(_ & evs & u & Hev & _)]);
    [congruence|].
  intros _. exists u. split.
  - assert (ServerJoin du u ∈ calls (events (joinServer H du us w))) as Hin.
    { rewrite Hev. unfold calls. rewrite fmap_app. apply elem_of_app. right. left. }
    rewrite Hc in Hin. apply list_elem_of_fmap in Hin as (y & [= ->] & Hy).
    subst us. apply elem_of_app. by left.
  - rewrite Hev. apply elem_of_app. right. left.
Qed.

Lemma openBroker_returned path u initializing joinURLs raftTracing w :
  result (openBroker H path u initializing joinURLs raftTracing w) = Ret tt →
  (BrokerOpen path, None)
    ∈ events (openBroker H path u initializing joinURLs raftTracing w) ∧
  (LogOpen (filepath_Join H path "raft"), None)
    ∈ events (openBroker H path u initializing joinURLs raftTracing w) ∧
  (initializing = true →
   match joinURLs with
   | [] => (LogInitialize, None)
             ∈ events (openBroker H path u initializing joinURLs raftTracing w)
   | _ :: _ => ∃ u', u' ∈ joinURLs ∧
        (LogJoin u', None)
          ∈ events (openBroker H path u initializing joinURLs raftTracing w)
   end).
Proof.
  unfold openBroker.
  do 5 run_step H; [run_read; done|].
  do 2 run_step H; [run_read; done|].
  destruct initializing; [|run_read; intros _; split_and!; [find_mem..|done]].
  destruct joinURLs as [|u0 us].
  - run_step H; run_read; [done|]. intros _. split_and!; [find_mem..|].
    intros _. find_mem.
  - rewrite !events_prepend, !result_prepend.
    intros Hr. destruct (joinLog_returned _ _ Hr) as (u' & Hu' & Hin).
    split_and!; [find_mem..|]. intros _. exists u'. split; [done|].
    repeat (apply elem_of_app; right). done.
Qed.

Lemma openServer_returned config initServer initBroker joinURLs w :
  result (openServer H G api config initServer initBroker joinURLs w) = Ret tt →
  (ClientOpen (filepath_Join H (Data_Dir (Data config)) (messagingClientFile G)),
   None) ∈ events (openServer H G api config initServer initBroker joinURLs w) ∧
  (ServerOpen (Data_Dir (Data config)), None)
    ∈ events (openServer H G api config initServer initBroker joinURLs w) ∧
  (initServer = true →
   match joinURLs with
   | [] => initBroker = true →
           ∃ bu, (ServerInitialize bu, None)
                   ∈ events (openServer H G api config initServer initBroker
                               joinURLs w)
   | _ :: _ => ∃ u', u' ∈ joinURLs ∧
        (ServerJoin (DataURL api config) u', None)
          ∈ events (openServer H G api config initServer initBroker joinURLs w)
   end).
Proof.
  unfold openServer.
  match goal with
  | |- context [bind ?m _ w] =>
      assert (∃ urls, m w = Ran (Ret urls) w []) as [urls Hm]
        by (destruct joinURLs; [rewrite run_ask|]; by eexists)
  end.
  rewrite (bind_pure _ _ _ _ _ Hm). clear Hm.
  do 3 run_step H; [run_read; done|].
  run_step H.
  match goal with
  | |- context [client_URLs H ?w'] => destruct (client_URLs H w') eqn:Hurls
  end; [run_read; done|].
  do 2 run_step H; [run_read; done|].
  destruct initServer; [|run_read; intros _; split_and!; [find_mem..|done]].
  destruct joinURLs as [|u0 us].
  - destruct initBroker.
    + do 2 run_step H; run_read; [done|]. intros _. split_and!; [find_mem..|].
      intros _ _. eexists. find_mem.
    + run_read. intros _. split_and!; [find_mem..|]. done.
  - rewrite !events_prepend, !result_prepend.
    intros Hr. destruct (joinServer_returned _ _ _ Hr) as (u' & Hu' & Hin).
    split_and!; [find_mem..|]. intros _. exists u'. split; [done|].
    repeat (apply elem_of_app; right). done.
Qed.

End Returned.

Ltac search_mem :=
  first
    [ assumption
    | apply list_elem_of_here
    | apply list_elem_of_further; search_mem
    | apply elem_of_app; first [left; search_mem | right; search_mem] ].

Section RunReturned.
Context (H : Host) (G : Globals) (api : ConfigAPI).

Lemma runNode_returned config initBroker initServer joinURLs w :
  result (runNode H G api config initBroker initServer joinURLs w) = Ret tt →
  ∃ ws,
    result (openBroker H (BrokerDir api config) (BrokerURL api config)
              initBroker joinURLs (Logging_RaftTracing (Logging config)) w)
      = Ret tt ∧
    result (openServer H G api config initServer initBroker joinURLs ws)
      = Ret tt ∧
    (∀ e, e ∈ events (openBroker H (BrokerDir api config) (BrokerURL api config)
                        initBroker joinURLs
                        (Logging_RaftTracing (Logging config)) w) →
          e ∈ events (runNode H G api config initBroker initServer joinURLs w)) ∧
    (∀ e, e ∈ events (openServer H G api config initServer initBroker
                        joinURLs ws) →
          e ∈ events (runNode H G api config initBroker initServer joinURLs w)) ∧
    (NetListen (BrokerAddr api config), None)
      ∈ events (runNode H G api config initBroker initServer joinURLs w) ∧
    (StartShardGroupsPreCreate (ShardGroupPreCreateCheckPeriod api config), None)
      ∈ events (runNode H G api config initBroker initServer joinURLs w).
Proof.
  unfold runNode. rewrite run_bind.
  destruct (openBroker H (BrokerDir api config) (BrokerURL api config)
              initBroker joinURLs (Logging_RaftTracing (Logging config)) w)
    as [[[]|msg] wb evb]; cbn [result events final]; [|done].
  run_step H; [run_read; rewrite ?result_prepend; done|].
  run_step H.
  assert (∀ (K : unit → M H unit) w1 (P : run (World H) unit → Prop),
            (∀ w2 evs, P (prepend evs (K tt w2))) →
            P (bind (if ContinuousQuery_Disable (ContinuousQuery config)
                     then ret tt else tell H RunContinuousQueryLoop) K w1))
    as Hcq.
  { intros K w1 P HP. destruct (ContinuousQuery_Disable _).
    - rewrite run_ret. rewrite <- (prepend_nil _ (K tt w1)). apply HP.
    - rewrite run_tell. apply HP. }
  match goal with
  | |- context [bind (if _ then _ else _) ?K ?w1] =>
      pattern (bind (if ContinuousQuery_Disable (ContinuousQuery config)
                     then ret tt else tell H RunContinuousQueryLoop) K w1);
      apply Hcq; clear Hcq; intros w2 cqevs
  end.
  rewrite run_bind.
  destruct (openServer H G api config initServer initBroker joinURLs w2)
    as [[[]|msg] ws evs] eqn:Es; cbn [result events final];
    [|rewrite !result_prepend; done].
  run_step H.
  match goal with
  | |- context [bind (if ?b then _ else _) _ _] => destruct b
  end.
  - rewrite bind_assoc. run_step H;
      [rewrite run_fatal, !result_prepend; done|rewrite run_ret].
    run_step H; [run_read; rewrite ?result_prepend; done|].
    rewrite !result_prepend, !events_prepend. intros _.
    exists w2. rewrite Es. cbn [result events].
    split_and!; try done; try (intros e He); search_mem.
  - rewrite run_ret.
    run_step H; [run_read; rewrite ?result_prepend; done|].
    rewrite !result_prepend, !events_prepend. intros _.
    exists w2. rewrite Es. cbn [result events].
    split_and!; try done; try (intros e He); search_mem.
Qed.

End RunReturned.

(** X6. When [Run] returns, the broker, the raft log (in the broker
    directory), the TCP listener, the messaging client and the data server
    were all opened without error, and shard group pre-creation was
    started. *)
Theorem Run_returns_with_everything_open (H : Host) (G : Globals)
    (api : ConfigAPI) (config : Config) (join version : string) (w : World H) :
  returned (Run H G api config join version w) →
  (BrokerOpen (BrokerDir api config), None)
    ∈ events (Run H G api config join version w) ∧
  (LogOpen (filepath_Join H (BrokerDir api config) "raft"), None)
    ∈ events (Run H G api config join version w) ∧
  (NetListen (BrokerAddr api config), None)
    ∈ events (Run H G api config join version w) ∧
  (ClientOpen (filepath_Join H (Data_Dir (Data config)) (messagingClientFile G)),
   None) ∈ events (Run H G api config join version w) ∧
  (ServerOpen (Data_Dir (Data config)), None)
    ∈ events (Run H G api config join version w) ∧
  (StartShardGroupsPreCreate (ShardGroupPreCreateCheckPeriod api config), None)
    ∈ events (Run H G api config join version w).
Proof.
  intros [[] Hr]. rewrite Run_run in *.
  destruct (result (runJoinURLs H api config join w)) as [us|msg]; [|done].
  destruct (runNode_returned H G api config _ _ us w Hr)
    as (ws & Hb & Hs & Sb & Ss & Hl & Hp).
  destruct (openBroker_returned H _ _ _ _ _ _ Hb) as (B1 & B2 & _).
  destruct (openServer_returned H G api _ _ _ _ _ Hs) as (S1 & S2 & _).
  split_and!; auto.
Qed.

(** X7. A node without a broker directory that comes up ([Run] returns) has
    either initialized both the raft log and the server (no join URL), or
    joined both through one of the join URLs and initialized nothing. *)
Theorem new_node_initializes_or_joins (H : Host) (G : Globals)
    (api : ConfigAPI) (config : Config) (join version : string) (w : World H)
    (joinURLs : list URL) :
  os_Stat_IsNotExist H (BrokerDir api config) w = true →
  result (runJoinURLs H api config join w) = Ret joinURLs →
  returned (Run H G api config join version w) →
  match joinURLs with
  | [] =>
      (LogInitialize, None) ∈ events (Run H G api config join version w) ∧
      ∃ bu, (ServerInitialize bu, None)
              ∈ events (Run H G api config join version w)
  | _ :: _ =>
      (∃ u, u ∈ joinURLs ∧
            (LogJoin u, None) ∈ events (Run H G api config join version w)) ∧
      (∃ u, u ∈ joinURLs ∧
            (ServerJoin (DataURL api config) u, None)
              ∈ events (Run H G api config join version w)) ∧
      Forall (λ c, is_Initialize c = false)
             (calls (events (Run H G api config join version w)))
  end.
Proof.
  intros Hm Hj [[] Hr]. rewrite Run_run in *. rewrite Hj, Hm in *.
  rewrite orb_true_r in *.
  destruct (runNode_returned H G api config _ _ joinURLs w Hr)
    as (ws & Hb & Hs & Sb & Ss & _).
  destruct (openBroker_returned H _ _ _ _ _ _ Hb) as (_ & _ & B3).
  destruct (openServer_returned H G api _ _ _ _ _ Hs) as (_ & _ & S3).
  specialize (B3 eq_refl). specialize (S3 eq_refl).
  destruct joinURLs as [|u0 us].
  - split; [by apply Sb|]. destruct (S3 eq_refl) as [bu Hbu].
    exists bu. by apply Ss.
  - destruct B3 as (u & Hu & Hin). destruct S3 as (u' & Hu' & Hin').
    split_and!.
    + exists u. split; [done|by apply Sb].
    + exists u'. split; [done|by apply Ss].
    + apply emits_runNode_joining.
Qed.

Section Lost.
Context (H : Host) (G : Globals) (api : ConfigAPI).

Lemma quiet_runGraphites config cs :
  emits (λ c, joins_or_bootstraps c = false) (runGraphites H api config cs).
Proof.
  induction cs as [|c cs IH]; simpl; [apply emits_ret|].
  destruct (Graphite_Enabled c); simpl; [|done].
  repeat emits_step. done.
Qed.

Lemma quiet_runNode config initServer :
  emits (λ c, joins_or_bootstraps c = false)
        (runNode H G api config false initServer []).
Proof.
  unfold runNode, openBroker, openServer, runServices.
  repeat lazymatch goal with
         | |- emits _ (runGraphites _ _ _ _) => apply quiet_runGraphites
         | |- _ => emits_step
         end.
Qed.

End Lost.

(** X8. When the broker directory exists and there is no join URL, [Run]
    neither initializes nor joins anything, also when the data directory
    is missing: the server is then opened on an empty directory and left
    uninitialized. *)
Theorem lost_data_directory_is_not_rebuilt (H : Host) (G : Globals)
    (api : ConfigAPI) (config : Config) (version : string) (w : World H) :
  os_Stat_IsNotExist H (BrokerDir api config) w = false →
  JoinURLs api config = "" →
  Forall (λ c, joins_or_bootstraps c = false)
         (calls (events (Run H G api config "" version w))).
Proof.
  intros Hm Hj. rewrite Run_run, Hm.
  assert (result (runJoinURLs H api config "" w) = Ret []) as ->
    by (by apply runJoinURLs_nil).
  apply quiet_runNode.
Qed.

(** X3. [joinServer] probes the join URLs in the order given: it calls
    [s.Join] with the data node's own URL and each join URL in turn, stops
    at the first that succeeds, and ends the process only after every URL
    was tried and failed. *)
Theorem joinServer_probes_in_order (H : Host) (u : URL) (joinURLs : list URL)
    (w : World H) :
  ∃ tried rest,
    joinURLs = tried ++ rest ∧
    calls (events (joinServer H u joinURLs w)) = ServerJoin u <$> tried ∧
    ((result (joinServer H u joinURLs w) =
        Fatal "join: failed to connect data node to any specified server" ∧
      rest = [] ∧ Forall failed (events (joinServer H u joinURLs w)))
     ∨
     (result (joinServer H u joinURLs w) = Ret tt ∧
      ∃ evs u', events (joinServer H u joinURLs w)
                = evs ++ [(ServerJoin u u', None)] ∧
                Forall failed evs)).
Proof. apply joinServer_run. Qed.

(** ** Runs on concrete hosts *)

Lemma Run_returns_only_without_failure_witness :
  returned (Run firstPeerDown sampleGlobals (sampleAPI "") sampleConfig
                "http://a:8086,http://b:8086" "0.9.0" []) ∧
  ∀ c e, (c, Some e)
           ∈ events (Run firstPeerDown sampleGlobals (sampleAPI "") sampleConfig
                         "http://a:8086,http://b:8086" "0.9.0" []) →
         tolerated c = true.
Proof.
  assert (returned (Run firstPeerDown sampleGlobals (sampleAPI "") sampleConfig
                        "http://a:8086,http://b:8086" "0.9.0" [])) as Hr
    by (by eexists).
  split; [exact Hr|].
  exact (Run_returns_only_without_failure firstPeerDown sampleGlobals
           (sampleAPI "") sampleConfig "http://a:8086,http://b:8086" "0.9.0"
           [] Hr).
Defined.

Lemma Run_returns_with_everything_open_witness :
  returned (Run firstPeerDown sampleGlobals (sampleAPI "") sampleConfig
                "http://a:8086,http://b:8086" "0.9.0" []) ∧
  (ServerOpen "/var/influxdb/data", None)
    ∈ events (Run firstPeerDown sampleGlobals (sampleAPI "") sampleConfig
                  "http://a:8086,http://b:8086" "0.9.0" []).
Proof.
  assert (returned (Run firstPeerDown sampleGlobals (sampleAPI "") sampleConfig
                        "http://a:8086,http://b:8086" "0.9.0" [])) as Hr
    by (by eexists).
  split; [exact Hr|].
  apply (Run_returns_with_everything_open firstPeerDown sampleGlobals
           (sampleAPI "") sampleConfig "http://a:8086,http://b:8086" "0.9.0"
           [] Hr).
Defined.

Lemma new_node_initializes_or_joins_witness :
  returned (Run firstPeerDown sampleGlobals (sampleAPI "") sampleConfig
                "http://a:8086,http://b:8086" "0.9.0" []) ∧
  (∃ u, u ∈ ["http://a:8086"; "http://b:8086"] ∧
        (LogJoin u, None)
          ∈ events (Run firstPeerDown sampleGlobals (sampleAPI "") sampleConfig
                        "http://a:8086,http://b:8086" "0.9.0" [])) ∧
  (∃ u, u ∈ ["http://a:8086"; "http://b:8086"] ∧
        (ServerJoin "http://localhost:8086" u, None)
          ∈ events (Run firstPeerDown sampleGlobals (sampleAPI "") sampleConfig
                        "http://a:8086,http://b:8086" "0.9.0" [])) ∧
  Forall (λ c, is_Initialize c = false)
         (calls (events (Run firstPeerDown sampleGlobals (sampleAPI "")
                             sampleConfig "http://a:8086,http://b:8086"
                             "0.9.0" []))).
Proof.
  assert (returned (Run firstPeerDown sampleGlobals (sampleAPI "") sampleConfig
                        "http://a:8086,http://b:8086" "0.9.0" [])) as Hr
    by (by eexists).
  split; [exact Hr|].
  exact (new_node_initializes_or_joins firstPeerDown sampleGlobals
           (sampleAPI "") sampleConfig "http://a:8086,http://b:8086" "0.9.0"
           [] ["http://a:8086"; "http://b:8086"] eq_refl eq_refl Hr).
Defined.

Lemma lost_data_directory_is_not_rebuilt_witness :
  os_Stat_IsNotExist dataDirLost (BrokerDir (sampleAPI "") sampleConfig) [] = false ∧
  os_Stat_IsNotExist dataDirLost (DataDir (sampleAPI "") sampleConfig) [] = true ∧
  Forall (λ c, joins_or_bootstraps c = false)
         (calls (events (Run dataDirLost sampleGlobals (sampleAPI "")
                             sampleConfig "" "0.9.0" []))).
Proof.
  split; [reflexivity|]. split; [reflexivity|].
  exact (lost_data_directory_is_not_rebuilt dataDirLost sampleGlobals
           (sampleAPI "") sampleConfig "0.9.0" [] eq_refl eq_refl).
Defined.

End StartupProperties.
